(** * The task-instance execution engine of ember-concurrency

    A shallow embedding of [addon/-private/external/task-instance/state.js]
    (class [TaskInstanceState]) and the properties of its ticketing,
    cancellation, yield classification and finalization.

    The engine is single-threaded JavaScript.  Every method is embedded as
    a function on an explicit [engine] record that holds the fields of the
    instance together with a model of the two things the instance talks to:

    - [env_queue]: the thunks handed to [env.async], waiting for a later
      turn of the host's scheduler;
    - [trace]: the calls made to host code (the Delegate, the Environment,
      the generator body, disposers, finalize callbacks, yieldable
      handlers, thenables), in the order they are made.

    Host callbacks are opaque: calling one is recorded in [trace].  Three
    kinds of host code re-enter the instance synchronously in the library
    itself, and these are part of the model: the generator body may call
    [cancel] on its own instance while it runs ([step_calls]); a yieldable
    handler and a thenable may resume the instance with the ticket they
    were given before they return ([h_sync], [th_sync]).  Delegate
    methods, disposers and finalize callbacks do not call back into the
    instance they are invoked from. *)

From Stdlib Require Import ZArith List Bool String Lia.
Import ListNotations.
Open Scope Z_scope.

Set Implicit Arguments.
Set Warnings "-register-all".

(** ** Constants of the module and of its imports *)

(** [YIELDABLE_CONTINUE], [YIELDABLE_THROW], [YIELDABLE_RETURN],
    [YIELDABLE_CANCEL]: the way a suspended body is resumed. *)
Inductive resume_type : Type :=
| YIELDABLE_CONTINUE
| YIELDABLE_THROW
| YIELDABLE_RETURN
| YIELDABLE_CANCEL.

(** [COMPLETION_SUCCESS], [COMPLETION_ERROR], [COMPLETION_CANCEL]. *)
Inductive completion : Type :=
| COMPLETION_SUCCESS
| COMPLETION_ERROR
| COMPLETION_CANCEL.

Inductive cancel_kind : Type :=
| CANCEL_KIND_EXPLICIT
| CANCEL_KIND_YIELDED.

Inductive perform_type : Type :=
| PERFORM_TYPE_DEFAULT
| PERFORM_TYPE_UNLINKED
| PERFORM_TYPE_LINKED.

Definition TASK_CANCELATION_NAME : string := "TaskCancelation"%string.

Definition perform_type_eqb (a b : perform_type) : bool :=
  match a, b with
  | PERFORM_TYPE_DEFAULT, PERFORM_TYPE_DEFAULT
  | PERFORM_TYPE_UNLINKED, PERFORM_TYPE_UNLINKED
  | PERFORM_TYPE_LINKED, PERFORM_TYPE_LINKED => true
  | _, _ => false
  end.

(** ** JavaScript values

    Only what the engine inspects of a value is kept: its truthiness,
    whether it is a function, and the six properties the engine reads off
    an object. *)

(** What a yieldable handler or a thenable does with the instance before
    it returns: resumption attempts made with the ticket it was handed. *)
Record attempt_of (V : Type) : Type := Attempt {
  a_type : resume_type;
  a_value : V
}.

(** How the call of a yieldable handler ends. *)
Inductive handler_result (V : Type) : Type :=
| HReturn (v : V)      (* returns [v]; a function is taken as a disposer *)
| HThrow (e : V).      (* throws [e] *)

(** The function stored under [yieldableSymbol]. *)
Record handler_of (V : Type) : Type := Handler {
  h_id : nat;
  h_sync : list (attempt_of V);
  h_result : handler_result V
}.

(** A [then] method: it may settle synchronously, [true] for fulfilment
    and [false] for rejection. *)
Record thenable_of (V : Type) : Type := Thenable {
  th_id : nat;
  th_sync : list (bool * V)
}.

(** An object and the properties the engine looks at. *)
Record object_of (V : Type) : Type := Obj {
  o_raw : option V;                     (* [instanceof RawValue], with its [.value] *)
  o_ec_cancel : V;                      (* [.__ec_cancel__] *)
  o_yieldable : option (handler_of V);  (* [[yieldableSymbol]], when truthy *)
  o_then : option (thenable_of V);      (* [.then], when it is a function *)
  o_performType : option perform_type;  (* [._performType] *)
  o_name : option string;               (* [.name] *)
  o_message : option string             (* [.message] *)
}.

Inductive jsval : Type :=
| VUndefined
| VNull
| VBool (b : bool)
| VNum (n : Z)
| VStr (s : string)
| VFun (f : nat)                        (* a host function, named by a number *)
| VSentinel                             (* [CANCEL_RETURN_VALUE_SENTINEL] *)
| VObj (o : object_of jsval).

Definition attempt := attempt_of jsval.
Definition handler := handler_of jsval.
Definition thenable := thenable_of jsval.
Definition object := object_of jsval.

(** JavaScript truthiness, as tested by [!x] and [if (x)]. *)
Definition truthy (v : jsval) : bool :=
  match v with
  | VUndefined | VNull => false
  | VBool b => b
  | VNum n => negb (Z.eqb n 0)
  | VStr s => negb (String.eqb s ""%string)
  | VFun _ | VSentinel | VObj _ => true
  end.

(** Property reads; a property of a non-object is [undefined]. *)
Definition get_raw (v : jsval) : option jsval :=
  match v with VObj o => o_raw o | _ => None end.

Definition get_ec_cancel (v : jsval) : jsval :=
  match v with VObj o => o_ec_cancel o | _ => VUndefined end.

Definition get_yieldable (v : jsval) : option handler :=
  match v with VObj o => o_yieldable o | _ => None end.

Definition get_then (v : jsval) : option thenable :=
  match v with VObj o => o_then o | _ => None end.

Definition get_performType (v : jsval) : option perform_type :=
  match v with VObj o => o_performType o | _ => None end.

Definition get_name (v : jsval) : option string :=
  match v with VObj o => o_name o | _ => None end.

(** A plain object with none of the inspected properties. *)
Definition plain_object : object :=
  Obj None VUndefined None None None None None.

(** [new Error(message)] with its [name] set to [TASK_CANCELATION_NAME]. *)
Definition cancelation_error (message : string) : jsval :=
  VObj (Obj None VUndefined None None None
            (Some TASK_CANCELATION_NAME) (Some message)).

(** [didCancel(e)]: [e && e.name === TASK_CANCELATION_NAME]. *)
Definition didCancel (e : jsval) : bool :=
  truthy e &&
  match get_name e with
  | Some n => String.eqb n TASK_CANCELATION_NAME
  | None => false
  end.

(** ** The state published to the Delegate *)

(** [this.state], a copy of [INITIAL_STATE] merged with every [setState]. *)
Record TaskState : Type := {
  hasStarted : bool;
  isFinished : bool;
  isSuccessful : bool;
  isError : bool;
  isCanceled : bool;
  completionState : option completion;
  value : jsval;
  error : jsval;
  cancelReason : option string
}.

(** Modelled from the spec: [INITIAL_STATE] is imported from
    [./initial-state], which is not part of the sources at hand.  The spec
    lists the fields (hasStarted, isFinished, isSuccessful, isError,
    isCanceled, completion outcome, value, error); a new instance has
    started nothing and has no outcome. *)
Definition INITIAL_STATE : TaskState :=
  {| hasStarted := false; isFinished := false; isSuccessful := false;
     isError := false; isCanceled := false; completionState := None;
     value := VNull; error := VNull; cancelReason := None |}.

(** The object literal passed to [setState]: the keys that are present. *)
Record partial : Type := {
  p_hasStarted : option bool;
  p_isFinished : option bool;
  p_isSuccessful : option bool;
  p_isError : option bool;
  p_isCanceled : option bool;
  p_completionState : option completion;
  p_value : option jsval;
  p_error : option jsval;
  p_cancelReason : option string
}.

Definition empty_partial : partial :=
  {| p_hasStarted := None; p_isFinished := None; p_isSuccessful := None;
     p_isError := None; p_isCanceled := None; p_completionState := None;
     p_value := None; p_error := None; p_cancelReason := None |}.

Definition or_else {A : Type} (o : option A) (d : A) : A :=
  match o with Some a => a | None => d end.

(** [Object.assign(this.state, p)]. *)
Definition assign (st : TaskState) (p : partial) : TaskState :=
  {| hasStarted := or_else (p_hasStarted p) (hasStarted st);
     isFinished := or_else (p_isFinished p) (isFinished st);
     isSuccessful := or_else (p_isSuccessful p) (isSuccessful st);
     isError := or_else (p_isError p) (isError st);
     isCanceled := or_else (p_isCanceled p) (isCanceled st);
     completionState :=
       match p_completionState p with
       | Some c => Some c
       | None => completionState st
       end;
     value := or_else (p_value p) (value st);
     error := or_else (p_error p) (error st);
     cancelReason :=
       match p_cancelReason p with
       | Some r => Some r
       | None => cancelReason st
       end |}.

(** [new CancelRequest(kind, reason)]. *)
Record CancelRequest : Type := {
  kind : cancel_kind;
  reason : jsval
}.

(** ** Host code and the trace of calls to it *)

(** The functions pushed on [finalizeCallbacks]: a host callback, or the
    closure that [onYielded] builds over a parent and its ticket. *)
Inductive callback : Type :=
| CbHost (id : nat)
| CbResumeParent (parent : nat) (resumeIndex : Z).

(** The closures handed to [env.async]. *)
Inductive thunk : Type :=
| ThProceedSync (yieldResumeType : resume_type) (v : jsval)
| ThReportUnhandled.

(** Which of the two call sites of [env.reportUncaughtRejection] made the
    call. *)
Inductive report_site : Type :=
| UnhandledTaskError        (* [maybeThrowUnhandledTaskErrorLater] *)
| YieldableFailure.         (* the [catch] of [invokeYieldable] *)

Inductive event : Type :=
| EvSetState (p : partial)                     (* [delegate.setState(p)] *)
| EvOnStarted                                  (* [delegate.onStarted()] *)
| EvOnSuccess                                  (* [delegate.onSuccess()] *)
| EvOnError (e : jsval)                        (* [delegate.onError(e)] *)
| EvOnCancel (r : jsval)                       (* [delegate.onCancel(r)] *)
| EvFormatCancelReason (r : jsval)             (* [delegate.formatCancelReason(r)] *)
| EvGetYieldContext                            (* [delegate.getYieldContext()] *)
| EvStep (v : jsval) (m : resume_type)         (* [generatorState.step(v, m)] *)
| EvDisposer (d : jsval) (r : jsval)           (* [disposer(r)] *)
| EvFinalizeCallback (cb : callback)           (* [cb()] *)
| EvParentProceedChecked (parent : nat) (i : Z) (m : resume_type) (v : jsval)
                                               (* [parent.proceedChecked(i, m, v)] *)
| EvYieldable (h : nat) (ctx : jsval) (i : Z)  (* [yieldedValue[yieldableSymbol](ctx, i)] *)
| EvThen (t : nat) (i : Z)                     (* [thenable.then(..)], ticket [i] captured *)
| EvDefer                                      (* [env.defer()] *)
| EvResolve (v : jsval)                        (* [defer.resolve(v)] *)
| EvReject (e : jsval)                         (* [defer.reject(e)] *)
| EvReportUncaught (site : report_site) (e : jsval)
                                               (* [env.reportUncaughtRejection(e)] *)
| EvConsoleLog (msg : string)                  (* [console.log] *)
| EvConsoleWarn                                (* [console.warn] *)
| EvTypeError.                                 (* reading [.reason] of [null] throws *)

(** What the Delegate and the Environment answer. *)
Record Delegate : Type := {
  formatCancelReason : jsval -> string;
  getYieldContext : jsval
}.

Record Environment : Type := {
  globalDebuggingEnabled : bool
}.

(** ** The generator body and [GeneratorState] *)

Section Engine.

(** The states of the suspended body (the iterator of the task function). *)
Variable G : Type.

(** How one run of the body, from a resumption to its next pause, ends. *)
Inductive body_step : Type :=
| Yielded (v : jsval) (rest : G)   (* [yield v] *)
| Returned (v : jsval)             (* [return v] *)
| Threw (e : jsval).               (* an exception left the body *)

(** One run of the body: the reasons of the [cancel(reason)] calls it makes
    on its own instance while it runs, then how it pauses or ends. *)
Record reaction : Type := {
  step_calls : list jsval;
  step_end : body_step
}.

(** [GeneratorState]: the task function (what the body does when it is
    resumed in a given state), the iterator made from it, and [done]. *)
Record GeneratorState : Type := {
  done : bool;
  iterator : G;
  task_fn : G -> resume_type -> jsval -> reaction
}.

Record GeneratorStepResult : Type := {
  sr_value : jsval;
  sr_done : bool;
  sr_errored : bool
}.

(** Modelled from the spec: [GeneratorState] is imported from
    [../../generator-state], which is not part of the sources at hand.  Its
    interface is [step(resumeValue, resumeKind) -> {done, value, errored}],
    and [done] is what [proceedSync] reads.  A yield leaves the body
    suspended; a return or an escaping exception ends it. *)
Definition GeneratorState_step (gs : GeneratorState) (e : body_step)
  : GeneratorStepResult * GeneratorState :=
  match e with
  | Yielded v rest =>
      ({| sr_value := v; sr_done := false; sr_errored := false |},
       {| done := false; iterator := rest; task_fn := task_fn gs |})
  | Returned v =>
      ({| sr_value := v; sr_done := true; sr_errored := false |},
       {| done := true; iterator := iterator gs; task_fn := task_fn gs |})
  | Threw x =>
      ({| sr_value := x; sr_done := true; sr_errored := true |},
       {| done := true; iterator := iterator gs; task_fn := task_fn gs |})
  end.

(** ** The instance *)

Record engine : Type := {
  generatorState : GeneratorState;
  delegate : Delegate;
  state : TaskState;
  index : Z;
  disposers : list jsval;
  finalizeCallbacks : list callback;
  env : Environment;
  performType : perform_type;
  debug : bool;
  cancelRequest : option CancelRequest;
  defer : bool;                     (* [this.defer] has been created *)
  asyncErrorsHandled : bool;
  expectsLinkedYield : bool;        (* [this._expectsLinkedYield] *)
  env_queue : list thunk;           (* thunks given to [env.async], oldest first *)
  trace : list event                (* calls to host code, oldest first *)
}.

(** [new TaskInstanceState({ generatorFactory, delegate, env, debug,
    performType })]; [defer], [asyncErrorsHandled] and
    [_expectsLinkedYield] are not assigned by the constructor and read as
    [undefined]. *)
Definition new_TaskInstanceState
    (fn : G -> resume_type -> jsval -> reaction) (generatorFactory : G)
    (d : Delegate) (e : Environment) (dbg : bool) (pt : perform_type)
  : engine :=
  {| generatorState :=
       {| done := false; iterator := generatorFactory; task_fn := fn |};
     delegate := d;
     state := INITIAL_STATE;
     index := 1;
     disposers := [];
     finalizeCallbacks := [];
     env := e;
     performType := pt;
     debug := dbg;
     cancelRequest := None;
     defer := false;
     asyncErrorsHandled := false;
     expectsLinkedYield := false;
     env_queue := [];
     trace := [] |}.

(** Field assignments. *)
Definition set_generatorState (x : GeneratorState) (s : engine) : engine :=
  {| generatorState := x; delegate := delegate s; state := state s;
     index := index s; disposers := disposers s;
     finalizeCallbacks := finalizeCallbacks s; env := env s;
     performType := performType s; debug := debug s;
     cancelRequest := cancelRequest s; defer := defer s;
     asyncErrorsHandled := asyncErrorsHandled s;
     expectsLinkedYield := expectsLinkedYield s;
     env_queue := env_queue s; trace := trace s |}.

Definition set_state (x : TaskState) (s : engine) : engine :=
  {| generatorState := generatorState s; delegate := delegate s; state := x;
     index := index s; disposers := disposers s;
     finalizeCallbacks := finalizeCallbacks s; env := env s;
     performType := performType s; debug := debug s;
     cancelRequest := cancelRequest s; defer := defer s;
     asyncErrorsHandled := asyncErrorsHandled s;
     expectsLinkedYield := expectsLinkedYield s;
     env_queue := env_queue s; trace := trace s |}.

Definition set_index (x : Z) (s : engine) : engine :=
  {| generatorState := generatorState s; delegate := delegate s;
     state := state s; index := x; disposers := disposers s;
     finalizeCallbacks := finalizeCallbacks s; env := env s;
     performType := performType s; debug := debug s;
     cancelRequest := cancelRequest s; defer := defer s;
     asyncErrorsHandled := asyncErrorsHandled s;
     expectsLinkedYield := expectsLinkedYield s;
     env_queue := env_queue s; trace := trace s |}.

Definition set_disposers (x : list jsval) (s : engine) : engine :=
  {| generatorState := generatorState s; delegate := delegate s;
     state := state s; index := index s; disposers := x;
     finalizeCallbacks := finalizeCallbacks s; env := env s;
     performType := performType s; debug := debug s;
     cancelRequest := cancelRequest s; defer := defer s;
     asyncErrorsHandled := asyncErrorsHandled s;
     expectsLinkedYield := expectsLinkedYield s;
     env_queue := env_queue s; trace := trace s |}.

Definition set_finalizeCallbacks (x : list callback) (s : engine) : engine :=
  {| generatorState := generatorState s; delegate := delegate s;
     state := state s; index := index s; disposers := disposers s;
     finalizeCallbacks := x; env := env s;
     performType := performType s; debug := debug s;
     cancelRequest := cancelRequest s; defer := defer s;
     asyncErrorsHandled := asyncErrorsHandled s;
     expectsLinkedYield := expectsLinkedYield s;
     env_queue := env_queue s; trace := trace s |}.

Definition set_cancelRequest (x : option CancelRequest) (s : engine) : engine :=
  {| generatorState := generatorState s; delegate := delegate s;
     state := state s; index := index s; disposers := disposers s;
     finalizeCallbacks := finalizeCallbacks s; env := env s;
     performType := performType s; debug := debug s;
     cancelRequest := x; defer := defer s;
     asyncErrorsHandled := asyncErrorsHandled s;
     expectsLinkedYield := expectsLinkedYield s;
     env_queue := env_queue s; trace := trace s |}.

Definition set_defer (x : bool) (s : engine) : engine :=
  {| generatorState := generatorState s; delegate := delegate s;
     state := state s; index := index s; disposers := disposers s;
     finalizeCallbacks := finalizeCallbacks s; env := env s;
     performType := performType s; debug := debug s;
     cancelRequest := cancelRequest s; defer := x;
     asyncErrorsHandled := asyncErrorsHandled s;
     expectsLinkedYield := expectsLinkedYield s;
     env_queue := env_queue s; trace := trace s |}.

Definition set_asyncErrorsHandled (x : bool) (s : engine) : engine :=
  {| generatorState := generatorState s; delegate := delegate s;
     state := state s; index := index s; disposers := disposers s;
     finalizeCallbacks := finalizeCallbacks s; env := env s;
     performType := performType s; debug := debug s;
     cancelRequest := cancelRequest s; defer := defer s;
     asyncErrorsHandled := x;
     expectsLinkedYield := expectsLinkedYield s;
     env_queue := env_queue s; trace := trace s |}.

Definition set_expectsLinkedYield (x : bool) (s : engine) : engine :=
  {| generatorState := generatorState s; delegate := delegate s;
     state := state s; index := index s; disposers := disposers s;
     finalizeCallbacks := finalizeCallbacks s; env := env s;
     performType := performType s; debug := debug s;
     cancelRequest := cancelRequest s; defer := defer s;
     asyncErrorsHandled := asyncErrorsHandled s;
     expectsLinkedYield := x;
     env_queue := env_queue s; trace := trace s |}.

Definition set_env_queue (x : list thunk) (s : engine) : engine :=
  {| generatorState := generatorState s; delegate := delegate s;
     state := state s; index := index s; disposers := disposers s;
     finalizeCallbacks := finalizeCallbacks s; env := env s;
     performType := performType s; debug := debug s;
     cancelRequest := cancelRequest s; defer := defer s;
     asyncErrorsHandled := asyncErrorsHandled s;
     expectsLinkedYield := expectsLinkedYield s;
     env_queue := x; trace := trace s |}.

Definition set_trace (x : list event) (s : engine) : engine :=
  {| generatorState := generatorState s; delegate := delegate s;
     state := state s; index := index s; disposers := disposers s;
     finalizeCallbacks := finalizeCallbacks s; env := env s;
     performType := performType s; debug := debug s;
     cancelRequest := cancelRequest s; defer := defer s;
     asyncErrorsHandled := asyncErrorsHandled s;
     expectsLinkedYield := expectsLinkedYield s;
     env_queue := env_queue s; trace := x |}.

(** A call to host code: recorded after the calls made before it. *)
Definition emit (e : event) (s : engine) : engine :=
  set_trace (trace s ++ [e]) s.

Definition emit_all (es : list event) (s : engine) : engine :=
  set_trace (trace s ++ es) s.

(** [env.async(fn)]: [fn] waits in the queue for a later turn. *)
Definition env_async (t : thunk) (s : engine) : engine :=
  set_env_queue (env_queue s ++ [t]) s.

(** ** The methods of [TaskInstanceState] *)

(** [setState(state)]. *)
Definition setState (p : partial) (s : engine) : engine :=
  emit (EvSetState p) (set_state (assign (state s) p) s).

(** [advanceIndex(index)]: [++this.index] when the ticket is the current
    index, [undefined] otherwise. *)
Definition advanceIndex (i : Z) (s : engine) : option Z * engine :=
  if index s =? i
  then (Some (index s + 1), set_index (index s + 1) s)
  else (None, s).

(** Truthiness of what [advanceIndex] returns. *)
Definition advanced (r : option Z) : bool :=
  match r with
  | Some n => negb (n =? 0)
  | None => false
  end.

(** [proceedAsync(yieldResumeType, value)]. *)
Definition proceedAsync (t : resume_type) (v : jsval) (s : engine) : engine :=
  let s1 := snd (advanceIndex (index s) s) in
  env_async (ThProceedSync t v) s1.

(** [proceedWithCancelAsync()]. *)
Definition proceedWithCancelAsync (s : engine) : engine :=
  proceedAsync YIELDABLE_RETURN VSentinel s.

(** [requestCancel(request)]. *)
Definition requestCancel (request : CancelRequest) (s : engine)
  : bool * engine :=
  match cancelRequest s with
  | Some _ => (false, s)
  | None =>
      if isFinished (state s) then (false, s)
      else (true, set_cancelRequest (Some request) s)
  end.

(** [proceedChecked(index, yieldResumeType, value)].  In the cancel branch
    [value] is written as a second argument of [requestCancel], which has
    one parameter: the request carries no reason. *)
Definition proceedChecked (i : Z) (t : resume_type) (v : jsval) (s : engine)
  : engine :=
  if isFinished (state s) then s
  else
    let (r, s1) := advanceIndex i s in
    if negb (advanced r) then s1
    else
      match t with
      | YIELDABLE_CANCEL =>
          let s2 := snd (requestCancel
                           {| kind := CANCEL_KIND_YIELDED;
                              reason := VUndefined |} s1) in
          proceedWithCancelAsync s2
      | _ => proceedAsync t v s1
      end.

(** [proceedWithSimpleValue(yieldedValue)]. *)
Definition proceedWithSimpleValue (v : jsval) (s : engine) : engine :=
  proceedAsync YIELDABLE_CONTINUE v s.

(** [addDisposer(maybeDisposer)]. *)
Definition addDisposer (maybeDisposer : jsval) (s : engine) : engine :=
  match maybeDisposer with
  | VFun _ => set_disposers (disposers s ++ [maybeDisposer]) s
  | _ => s
  end.

(** [dispose(reason)]. *)
Definition dispose (r : jsval) (s : engine) : engine :=
  match disposers s with
  | [] => s
  | ds => emit_all (map (fun d => EvDisposer d r) ds) (set_disposers [] s)
  end.

(** [maybeResolveDefer()]. *)
Definition maybeResolveDefer (s : engine) : engine :=
  if negb (defer s) || negb (isFinished (state s)) then s
  else
    match completionState (state s) with
    | Some COMPLETION_SUCCESS => emit (EvResolve (value (state s))) s
    | _ => emit (EvReject (error (state s))) s
    end.

(** [maybeThrowUnhandledTaskErrorLater()]. *)
Definition maybeThrowUnhandledTaskErrorLater (s : engine) : engine :=
  if negb (asyncErrorsHandled s)
     && match completionState (state s) with
        | Some COMPLETION_ERROR => true
        | _ => false
        end
     && negb (didCancel (error (state s)))
  then env_async ThReportUnhandled s
  else s.

(** The call [cb()] of a finalize callback.  The closure built by
    [onYielded] reads the outcome and resumes the parent. *)
Definition run_callback (st : TaskState) (cb : callback) : list event :=
  EvFinalizeCallback cb ::
  match cb with
  | CbHost _ => []
  | CbResumeParent parent resumeIndex =>
      match completionState st with
      | Some COMPLETION_SUCCESS =>
          [EvParentProceedChecked parent resumeIndex YIELDABLE_CONTINUE (value st)]
      | Some COMPLETION_ERROR =>
          [EvParentProceedChecked parent resumeIndex YIELDABLE_THROW (error st)]
      | Some COMPLETION_CANCEL =>
          [EvParentProceedChecked parent resumeIndex YIELDABLE_CANCEL VNull]
      | None => []
      end
  end.

(** [runFinalizeCallbacks()]. *)
Definition runFinalizeCallbacks (s : engine) : engine :=
  let s1 := emit_all (flat_map (run_callback (state s)) (finalizeCallbacks s)) s in
  let s2 := set_finalizeCallbacks [] s1 in
  let s3 := maybeResolveDefer s2 in
  maybeThrowUnhandledTaskErrorLater s3.

(** [dispatchFinalizeEvents(completionState)]. *)
Definition dispatchFinalizeEvents (c : option completion) (s : engine)
  : engine :=
  match c with
  | Some COMPLETION_SUCCESS => emit EvOnSuccess s
  | Some COMPLETION_ERROR => emit (EvOnError (error (state s))) s
  | Some COMPLETION_CANCEL =>
      match cancelRequest s with
      | Some r => emit (EvOnCancel (reason r)) s
      | None => emit EvTypeError s
      end
  | None => s
  end.

(** [finalizeShared(state)]. *)
Definition finalizeShared (p : partial) (s : engine) : engine :=
  let s1 := set_index (index s + 1) s in
  let p' :=
    {| p_hasStarted := p_hasStarted p; p_isFinished := Some true;
       p_isSuccessful := p_isSuccessful p; p_isError := p_isError p;
       p_isCanceled := p_isCanceled p;
       p_completionState := p_completionState p;
       p_value := p_value p; p_error := p_error p;
       p_cancelReason := p_cancelReason p |} in
  let s2 := setState p' s1 in
  let s3 := runFinalizeCallbacks s2 in
  dispatchFinalizeEvents (p_completionState p') s3.

(** [finalizeWithCancel()]. *)
Definition finalizeWithCancel (s : engine) : engine :=
  match cancelRequest s with
  | None => emit EvTypeError s
  | Some r =>
      let cancelReason := formatCancelReason (delegate s) (reason r) in
      let s1 := emit (EvFormatCancelReason (reason r)) s in
      let error := cancelation_error cancelReason in
      let s2 := if debug s1 || globalDebuggingEnabled (env s1)
                then emit (EvConsoleLog cancelReason) s1
                else s1 in
      finalizeShared
        {| p_hasStarted := None; p_isFinished := None;
           p_isSuccessful := None; p_isError := None;
           p_isCanceled := Some true;
           p_completionState := Some COMPLETION_CANCEL;
           p_value := None; p_error := Some error;
           p_cancelReason := Some cancelReason |} s2
  end.

(** [finalize(value, completionState)]. *)
Definition finalize (v : jsval) (c : completion) (s : engine) : engine :=
  match cancelRequest s with
  | Some _ => finalizeWithCancel s
  | None =>
      let p :=
        match c with
        | COMPLETION_SUCCESS =>
            {| p_hasStarted := None; p_isFinished := None;
               p_isSuccessful := Some true; p_isError := None;
               p_isCanceled := None; p_completionState := Some c;
               p_value := Some v; p_error := None;
               p_cancelReason := None |}
        | COMPLETION_ERROR =>
            {| p_hasStarted := None; p_isFinished := None;
               p_isSuccessful := None; p_isError := Some true;
               p_isCanceled := None; p_completionState := Some c;
               p_value := None; p_error := Some v;
               p_cancelReason := None |}
        | COMPLETION_CANCEL =>
            {| p_hasStarted := None; p_isFinished := None;
               p_isSuccessful := None; p_isError := None;
               p_isCanceled := None; p_completionState := Some c;
               p_value := None; p_error := Some v;
               p_cancelReason := None |}
        end in
      finalizeShared p s
  end.

(** [cancel(sourceCancelReason)]. *)
Definition cancel (sourceCancelReason : jsval) (s : engine) : engine :=
  let (accepted, s1) :=
    requestCancel {| kind := CANCEL_KIND_EXPLICIT;
                     reason := sourceCancelReason |} s in
  if negb accepted then s1
  else if hasStarted (state s1) then proceedWithCancelAsync s1
  else finalizeWithCancel s1.

(** [generatorStep(nextValue, iteratorMethod)].  The instance is pushed on
    the module's [TASK_INSTANCE_STACK] for the duration of the step and
    popped after it; no method of the class reads the stack.  While the
    body runs it may cancel its own instance. *)
Definition generatorStep (nextValue : jsval) (iteratorMethod : resume_type)
    (s : engine) : GeneratorStepResult * engine :=
  let r := task_fn (generatorState s) (iterator (generatorState s))
             iteratorMethod nextValue in
  let s1 := emit (EvStep nextValue iteratorMethod) s in
  let s2 := fold_left (fun acc why => cancel why acc) (step_calls r) s1 in
  let (stepResult, gs) := GeneratorState_step (generatorState s2) (step_end r) in
  let s3 := set_generatorState gs s2 in
  let s4 :=
    if expectsLinkedYield s3 then
      let v := sr_value stepResult in
      let s' :=
        if negb (truthy v)
           || negb match get_performType v with
                   | Some pt => perform_type_eqb pt PERFORM_TYPE_LINKED
                   | None => false
                   end
        then emit EvConsoleWarn s3
        else s3 in
      set_expectsLinkedYield false s'
    else s3 in
  (stepResult, s4).

(** The [TypeError] raised by calling something that is not a function. *)
Definition type_error : jsval :=
  VObj (Obj None VUndefined None None None (Some "TypeError"%string) None).

(** The resumptions a handler or thenable makes before it returns, all
    with the ticket it was handed. *)
Definition resume_each (ticket : Z) (l : list (resume_type * jsval))
    (s : engine) : engine :=
  fold_left (fun acc a => proceedChecked ticket (fst a) (snd a) acc) l s.

(** [invokeYieldable(yieldedValue)]: the handler is called inside [try];
    whatever it throws goes to [env.reportUncaughtRejection]. *)
Definition invokeYieldable (yieldedValue : jsval) (s : engine) : engine :=
  let yieldContext := getYieldContext (delegate s) in
  let s1 := emit EvGetYieldContext s in
  match get_yieldable yieldedValue with
  | None => emit (EvReportUncaught YieldableFailure type_error) s1
  | Some h =>
      let ticket := index s1 in
      let s2 := emit (EvYieldable (h_id h) yieldContext ticket) s1 in
      let s3 := resume_each ticket
                  (map (fun a => (a_type a, a_value a)) (h_sync h)) s2 in
      match h_result h with
      | HReturn maybeDisposer => addDisposer maybeDisposer s3
      | HThrow e => emit (EvReportUncaught YieldableFailure e) s3
      end
  end.

(** [handleYieldedUnknownThenable(thenable)]: both callbacks given to
    [then] capture [resumeIndex]. *)
Definition handleYieldedUnknownThenable (th : thenable) (s : engine)
  : engine :=
  let resumeIndex := index s in
  let s1 := emit (EvThen (th_id th) resumeIndex) s in
  resume_each resumeIndex
    (map (fun a : bool * jsval =>
            (if fst a then YIELDABLE_CONTINUE else YIELDABLE_THROW, snd a))
         (th_sync th)) s1.

(** [handleYieldedValue(stepResult)]. *)
Definition handleYieldedValue (stepResult : GeneratorStepResult)
    (s : engine) : engine :=
  let yieldedValue := sr_value stepResult in
  if negb (truthy yieldedValue) then proceedWithSimpleValue yieldedValue s
  else
    match get_raw yieldedValue with
    | Some inner => proceedWithSimpleValue inner s
    | None =>
        let s1 := addDisposer (get_ec_cancel yieldedValue) s in
        match get_yieldable yieldedValue with
        | Some _ => invokeYieldable yieldedValue s1
        | None =>
            match get_then yieldedValue with
            | Some th => handleYieldedUnknownThenable th s1
            | None => proceedWithSimpleValue yieldedValue s1
            end
        end
    end.

(** [handleResolvedContinueValue(iteratorMethod, resumeValue)]. *)
Definition handleResolvedContinueValue (iteratorMethod : resume_type)
    (resumeValue : jsval) (s : engine) : engine :=
  let beforeIndex := index s in
  let (stepResult, s1) := generatorStep resumeValue iteratorMethod s in
  let (r, s2) := advanceIndex beforeIndex s1 in
  if negb (advanced r) then s2
  else if sr_errored stepResult
       then finalize (sr_value stepResult) COMPLETION_ERROR s2
       else handleYieldedValue stepResult s2.

(** [handleResolvedReturnedValue(yieldResumeType, value)]. *)
Definition handleResolvedReturnedValue (t : resume_type) (v : jsval)
    (s : engine) : engine :=
  match t with
  | YIELDABLE_CONTINUE | YIELDABLE_RETURN => finalize v COMPLETION_SUCCESS s
  | YIELDABLE_THROW => finalize v COMPLETION_ERROR s
  | YIELDABLE_CANCEL => s
  end.

(** [proceedSync(yieldResumeType, value)]. *)
Definition proceedSync (t : resume_type) (v : jsval) (s : engine) : engine :=
  if isFinished (state s) then s
  else
    let s1 := dispose VUndefined s in
    if done (generatorState s1)
    then handleResolvedReturnedValue t v s1
    else handleResolvedContinueValue t v s1.

Definition is_some {A : Type} (o : option A) : bool :=
  match o with Some _ => true | None => false end.

(** [start()]. *)
Definition start (s : engine) : engine :=
  if hasStarted (state s) || is_some (cancelRequest s) then s
  else
    let s1 := setState
                {| p_hasStarted := Some true; p_isFinished := None;
                   p_isSuccessful := None; p_isError := None;
                   p_isCanceled := None; p_completionState := None;
                   p_value := None; p_error := None;
                   p_cancelReason := None |} s in
    let s2 := proceedSync YIELDABLE_CONTINUE VUndefined s1 in
    emit EvOnStarted s2.

(** [onFinalize(callback)]. *)
Definition onFinalize (cb : callback) (s : engine) : engine :=
  let s1 := set_finalizeCallbacks (finalizeCallbacks s ++ [cb]) s in
  if isFinished (state s1) then runFinalizeCallbacks s1 else s1.

(** [promise()]; the promise it returns belongs to the Environment. *)
Definition promise (s : engine) : engine :=
  if negb (defer s) then
    let s1 := set_defer true (emit EvDefer s) in
    let s2 := set_asyncErrorsHandled true s1 in
    maybeResolveDefer s2
  else s.

(** The disposer that [onYielded] returns: [detectSelfCancelLoop] has no
    effect, then [this.cancel()] with no reason. *)
Definition detectSelfCancelLoop (s : engine) : engine := s.

Definition child_disposer (r : jsval) (s : engine) : engine :=
  cancel VUndefined (detectSelfCancelLoop s).

(** [onYielded(parent, resumeIndex)]; the result says whether a disposer
    is returned to the parent. *)
Definition onYielded (parent : nat) (resumeIndex : Z) (s : engine)
  : bool * engine :=
  let s1 := set_asyncErrorsHandled true s in
  let s2 := onFinalize (CbResumeParent parent resumeIndex) s1 in
  (negb (perform_type_eqb (performType s2) PERFORM_TYPE_UNLINKED), s2).

(** ** Turns of the scheduler *)

(** Running a thunk that was given to [env.async]. *)
Definition run_thunk (th : thunk) (s : engine) : engine :=
  match th with
  | ThProceedSync t v => proceedSync t v s
  | ThReportUnhandled =>
      if negb (asyncErrorsHandled s)
      then emit (EvReportUncaught UnhandledTaskError (error (state s))) s
      else s
  end.

Fixpoint remove_nth {A : Type} (n : nat) (l : list A) : list A :=
  match l, n with
  | [], _ => []
  | _ :: t, O => t
  | x :: t, S m => x :: remove_nth m t
  end.

(** The scheduler takes the [n]-th waiting thunk and runs it. *)
Definition turn (n : nat) (s : engine) : engine :=
  match nth_error (env_queue s) n with
  | None => s
  | Some th => run_thunk th (set_env_queue (remove_nth n (env_queue s)) s)
  end.

(** ** Runs: what the host may do with an instance *)

Inductive op : Type :=
| OpStart
| OpCancel (r : jsval)
| OpProceedChecked (i : Z) (t : resume_type) (v : jsval)
| OpProceedSync (t : resume_type) (v : jsval)
| OpOnFinalize (id : nat)
| OpPromise
| OpOnYielded (parent : nat) (resumeIndex : Z)
| OpTurn (n : nat).

Definition apply_op (o : op) (s : engine) : engine :=
  match o with
  | OpStart => start s
  | OpCancel r => cancel r s
  | OpProceedChecked i t v => proceedChecked i t v s
  | OpProceedSync t v => proceedSync t v s
  | OpOnFinalize id => onFinalize (CbHost id) s
  | OpPromise => promise s
  | OpOnYielded parent i => snd (onYielded parent i s)
  | OpTurn n => turn n s
  end.

Definition run (ops : list op) (s : engine) : engine :=
  fold_left (fun acc o => apply_op o acc) ops s.


(** ** Reading the trace *)

Definition count (f : event -> bool) (l : list event) : nat :=
  List.length (filter f l).

(** The terminal events of the Delegate. *)
Definition is_terminal (e : event) : bool :=
  match e with
  | EvOnSuccess | EvOnError _ | EvOnCancel _ => true
  | _ => false
  end.

(** A [setState] that publishes [isFinished: true]. *)
Definition is_finalization (e : event) : bool :=
  match e with
  | EvSetState p =>
      match p_isFinished p with Some true => true | _ => false end
  | _ => false
  end.

(** A step of the body. *)
Definition is_step (e : event) : bool :=
  match e with EvStep _ _ => true | _ => false end.

(** A report of the instance's own error as uncaught. *)
Definition is_unhandled_report (e : event) : bool :=
  match e with EvReportUncaught UnhandledTaskError _ => true | _ => false end.

(** The finalize callbacks that were called, in the order of the calls. *)
Definition called_back (l : list event) : list callback :=
  flat_map (fun e => match e with
                     | EvFinalizeCallback cb => [cb]
                     | _ => []
                     end) l.

Definition terminals (s : engine) : nat := count is_terminal (trace s).
Definition finalizations (s : engine) : nat := count is_finalization (trace s).
Definition steps (s : engine) : nat := count is_step (trace s).
Definition unhandled_reports (s : engine) : nat :=
  count is_unhandled_report (trace s).

(** Every callback ever registered: those already called, then those
    still waiting. *)
Definition ledger (s : engine) : list callback :=
  called_back (trace s) ++ finalizeCallbacks s.

(** A ticket is honoured by an instance that is not finished and whose
    index it equals. *)
Definition accepts (i : Z) (s : engine) : bool :=
  negb (isFinished (state s)) && (index s =? i).

(** The number of resumption attempts with ticket [i], among the
    operations of a run, that arrive at an instance which honours them. *)
Fixpoint honored (i : Z) (ops : list op) (s : engine) : nat :=
  match ops with
  | [] => O
  | o :: rest =>
      Nat.add
        (match o with
         | OpProceedChecked j _ _ => if (j =? i) && accepts i s then 1%nat else O
         | _ => O
         end)
        (honored i rest (apply_op o s))
  end.


(** ** How an instance evolves

    Every method either leaves the finished flag, the terminal events and
    the finalizations as they are ([quiet]), or takes an unfinished
    instance to a finished one with exactly one more of each
    ([finishes]). *)

Definition fc_ok (s : engine) : Prop :=
  isFinished (state s) = true -> finalizeCallbacks s = [].

Definition quiet (s s' : engine) : Prop :=
  isFinished (state s') = isFinished (state s)
  /\ terminals s' = terminals s
  /\ finalizations s' = finalizations s
  /\ (fc_ok s -> fc_ok s')
  /\ (isFinished (state s) = false ->
      called_back (trace s') = called_back (trace s)).

Definition finishes (s s' : engine) : Prop :=
  isFinished (state s) = false
  /\ isFinished (state s') = true
  /\ finalizeCallbacks s' = []
  /\ index s < index s'
  /\ terminals s' = S (terminals s)
  /\ finalizations s' = S (finalizations s).

Definition evolves (s s' : engine) : Prop :=
  index s <= index s'
  /\ (quiet s s' \/ finishes s s')
  /\ (asyncErrorsHandled s = true ->
      asyncErrorsHandled s' = true
      /\ unhandled_reports s' = unhandled_reports s).

(** Calls to host code that are neither a terminal event, nor a
    finalization, nor a report of the instance's error, nor the call of a
    finalize callback. *)
Definition silent (d : list event) : Prop :=
  count is_terminal d = O /\ count is_finalization d = O
  /\ count is_unhandled_report d = O /\ called_back d = [].

(** The outcome passed to [finalizeShared] can be dispatched: it is
    present, and a cancel outcome comes with a cancel request. *)
Definition dispatchable (p : partial) (s : engine) : Prop :=
  match p_completionState p with
  | Some COMPLETION_CANCEL => cancelRequest s <> None
  | Some _ => True
  | None => False
  end.

Definition b2n (b : bool) : nat := if b then 1%nat else O.

(** The terminal events delivered to the Delegate, oldest first. *)
Definition delivered (s : engine) : list event :=
  filter is_terminal (trace s).

(** What holds of every instance driven from its construction: as many
    terminal events and finalizations as the finished flag says, no
    finalize callback called before the instance finishes and none
    waiting after. *)
Definition settled (s : engine) : Prop :=
  terminals s = b2n (isFinished (state s))
  /\ finalizations s = b2n (isFinished (state s))
  /\ fc_ok s
  /\ (isFinished (state s) = false -> called_back (trace s) = []).

(** ** The outcome of an instance

    A second reading of the methods: each one either leaves the outcome
    published so far, the cancel request and the terminal events as they
    are ([same_outcome]), or finishes an unfinished instance with the
    outcome that its cancel request decides ([finalized]). *)

Definition same_result (a b : TaskState) : Prop :=
  isFinished b = isFinished a
  /\ completionState b = completionState a
  /\ isSuccessful b = isSuccessful a
  /\ isError b = isError a
  /\ isCanceled b = isCanceled a
  /\ value b = value a
  /\ error b = error a
  /\ cancelReason b = cancelReason a.

Definition persists (s s' : engine) : Prop :=
  delegate s' = delegate s
  /\ (hasStarted (state s) = true -> hasStarted (state s') = true)
  /\ (forall r, cancelRequest s = Some r -> cancelRequest s' = Some r).

Definition same_outcome (s s' : engine) : Prop :=
  same_result (state s) (state s')
  /\ delivered s' = delivered s
  /\ persists s s'
  /\ (isFinished (state s) = true -> cancelRequest s' = cancelRequest s).

Definition finalized (s s' : engine) : Prop :=
  isFinished (state s) = false
  /\ isFinished (state s') = true
  /\ persists s s'
  /\ match cancelRequest s' with
     | Some r =>
         completionState (state s') = Some COMPLETION_CANCEL
         /\ isCanceled (state s') = true
         /\ isSuccessful (state s') = isSuccessful (state s)
         /\ isError (state s') = isError (state s)
         /\ value (state s') = value (state s)
         /\ error (state s')
            = cancelation_error (formatCancelReason (delegate s') (reason r))
         /\ delivered s' = delivered s ++ [EvOnCancel (reason r)]
     | None =>
         isCanceled (state s') = isCanceled (state s)
         /\ ((completionState (state s') = Some COMPLETION_SUCCESS
              /\ isSuccessful (state s') = true
              /\ isError (state s') = isError (state s)
              /\ error (state s') = error (state s)
              /\ delivered s' = delivered s ++ [EvOnSuccess])
             \/ (completionState (state s') = Some COMPLETION_ERROR
                 /\ isError (state s') = true
                 /\ isSuccessful (state s') = isSuccessful (state s)
                 /\ value (state s') = value (state s)
                 /\ delivered s'
                    = delivered s ++ [EvOnError (error (state s'))]))
     end.

Definition advances (s s' : engine) : Prop :=
  same_outcome s s' \/ finalized s s'.

(** The published outcome agrees with itself, with the cancel request and
    with what the Delegate was told: nothing before the instance is
    finished; afterwards exactly one of success, error and cancel, cancel
    exactly when there is a cancel request. *)
Definition coherent (s : engine) : Prop :=
  if isFinished (state s) then
    match cancelRequest s with
    | Some r =>
        completionState (state s) = Some COMPLETION_CANCEL
        /\ isCanceled (state s) = true
        /\ isSuccessful (state s) = false
        /\ isError (state s) = false
        /\ didCancel (error (state s)) = true
        /\ delivered s = [EvOnCancel (reason r)]
    | None =>
        isCanceled (state s) = false
        /\ ((completionState (state s) = Some COMPLETION_SUCCESS
             /\ isSuccessful (state s) = true
             /\ isError (state s) = false
             /\ delivered s = [EvOnSuccess])
            \/ (completionState (state s) = Some COMPLETION_ERROR
                /\ isError (state s) = true
                /\ isSuccessful (state s) = false
                /\ delivered s = [EvOnError (error (state s))]))
    end
  else
    completionState (state s) = None
    /\ isSuccessful (state s) = false
    /\ isError (state s) = false
    /\ isCanceled (state s) = false
    /\ delivered s = [].

(** ** Disposers and steps

    The disposers called so far, oldest first. *)
Definition disposed (l : list event) : list jsval :=
  flat_map (fun e => match e with
                     | EvDisposer d _ => [d]
                     | _ => []
                     end) l.

(** From [s] to [s'] no disposer is lost or called twice: the disposers
    called in between, followed by those pending in [s'], are those that
    were pending in [s], in the same order, followed by the ones captured
    in between. *)
Definition keeps_disposers (s s' : engine) : Prop :=
  exists called added,
    disposed (trace s') = disposed (trace s) ++ called
    /\ called ++ disposers s' = disposers s ++ added.

(** A method that neither steps the body nor loses a disposer. *)
Definition tame (s s' : engine) : Prop :=
  steps s' = steps s
  /\ generatorState s' = generatorState s
  /\ keeps_disposers s s'.

(** ** The deferred result

    The calls that settle the promise of the instance, oldest first. *)
Definition is_settle (e : event) : bool :=
  match e with EvResolve _ | EvReject _ => true | _ => false end.

Definition settlements (s : engine) : list event :=
  filter is_settle (trace s).

(** How the promise of an instance with published state [st] is settled:
    resolved with the value on success, rejected with the error
    otherwise. *)
Definition settlement (st : TaskState) : event :=
  match completionState st with
  | Some COMPLETION_SUCCESS => EvResolve (value st)
  | _ => EvReject (error st)
  end.

(** ** Tickets

    A ticket is handed out in two places only: to the callbacks given to
    a thenable's [then] and to the handler of a yieldable; both receive
    the index of the moment.  [issued i l] tells
    whether the calls of [l] handed out ticket [i]. *)
Definition issues (i : Z) (e : event) : bool :=
  match e with
  | EvThen _ j | EvYieldable _ _ j => j =? i
  | _ => false
  end.

Definition issued (i : Z) (l : list event) : bool := existsb (issues i) l.

(** A run in which the instance is driven through its interface only:
    [proceedChecked] is called with a ticket the instance has handed out
    before, and [proceedSync], which the instance calls on itself, is
    not called from outside. *)
Fixpoint well_driven (ops : list op) (s : engine) : bool :=
  match ops with
  | [] => true
  | o :: rest =>
      match o with
      | OpProceedChecked i _ _ => issued i (trace s)
      | OpProceedSync _ _ => false
      | _ => true
      end && well_driven rest (apply_op o s)
  end.

(** An instance nothing has happened to yet: not started, no cancel
    request, not finished, no ticket handed out, nothing scheduled. *)
Definition untouched (s : engine) : Prop :=
  hasStarted (state s) = false
  /\ cancelRequest s = None
  /\ isFinished (state s) = false
  /\ (forall i, issued i (trace s) = false)
  /\ env_queue s = [].

(** The test of [start]: the instance has started or carries a cancel
    request. *)
Definition start_guard (s : engine) : bool :=
  hasStarted (state s) || is_some (cancelRequest s).

(** ** Capturing and calling disposers

    What [addDisposer] appends for a value: the value if it is a function,
    nothing otherwise. *)
Definition as_disposer (d : jsval) : list jsval :=
  match d with
  | VFun _ => [d]
  | _ => []
  end.

(** The disposers captured when the body yields [y]: none for a falsy or
    a raw value; otherwise the function under the cancelable key, then
    the function the yieldable's handler returns. *)
Definition captured_by (y : jsval) : list jsval :=
  if negb (truthy y) then []
  else
    match get_raw y with
    | Some _ => []
    | None =>
        as_disposer (get_ec_cancel y)
        ++ match get_yieldable y with
           | Some h =>
               match h_result h with
               | HReturn d => as_disposer d
               | HThrow _ => []
               end
           | None => []
           end
    end.

(** The call of [proceedSync] an operation makes, with the instance as
    it is when the call is made: [start] past its guard, after publishing
    [hasStarted]; [proceedSync] itself; and the turn of a scheduled
    [proceedSync], taken off the queue. *)
Definition resumption (o : op) (s : engine)
  : option (resume_type * jsval * engine) :=
  match o with
  | OpStart =>
      if start_guard s then None
      else Some (YIELDABLE_CONTINUE, VUndefined,
                 setState
                   {| p_hasStarted := Some true; p_isFinished := None;
                      p_isSuccessful := None; p_isError := None;
                      p_isCanceled := None; p_completionState := None;
                      p_value := None; p_error := None;
                      p_cancelReason := None |} s)
  | OpProceedSync t v => Some (t, v, s)
  | OpTurn n =>
      match nth_error (env_queue s) n with
      | Some (ThProceedSync t v) =>
          Some (t, v, set_env_queue (remove_nth n (env_queue s)) s)
      | _ => None
      end
  | _ => None
  end.

(** An operation that resumes the instance: its call of [proceedSync]
    finds the instance unfinished. *)
Definition resumes (o : op) (s : engine) : bool :=
  match resumption o s with
  | Some (_, _, x) => negb (isFinished (state x))
  | None => false
  end.

(** Whether [proceedSync(t, v)] on an unfinished instance gets as far
    as [handleYieldedValue]: the body is not done, the step leaves the
    index alone and does not throw, and the advanced index is truthy. *)
Definition classifies (t : resume_type) (v : jsval) (s : engine) : bool :=
  let s1 := dispose VUndefined s in
  let r := generatorStep v t s1 in
  negb (done (generatorState s1))
  && (index (snd r) =? index s1)
  && negb (index s1 + 1 =? 0)
  && negb (sr_errored (fst r)).

(** The disposers pending after [proceedSync(t, v)] on an unfinished
    instance: those captured from the value the step yields, if the call
    gets that far. *)
Definition captures (t : resume_type) (v : jsval) (s : engine) : list jsval :=
  if classifies t v s
  then captured_by
         (sr_value (fst (generatorStep v t (dispose VUndefined s))))
  else [].

(** From [s] to [s'] no disposer is called and none is captured or
    dropped. *)
Definition undisturbed (s s' : engine) : Prop :=
  disposers s' = disposers s
  /\ disposed (trace s') = disposed (trace s).

End Engine.

(** ** A host, bodies and yielded values to run the engine on *)

Definition host : Delegate :=
  {| formatCancelReason := fun _ => "canceled"%string;
     getYieldContext := VUndefined |}.

Definition quiet_env : Environment := {| globalDebuggingEnabled := false |}.

(** [function * () { return 5; }]. *)
Definition returns_five (g : unit) (m : resume_type) (v : jsval)
  : reaction unit :=
  {| step_calls := []; step_end := Returned unit (VNum 5) |}.

Definition five : engine unit :=
  new_TaskInstanceState returns_five tt host quiet_env false
    PERFORM_TYPE_DEFAULT.

(** [function * () { return yield y; }]: the body yields [y] and ends with
    what it is resumed with, returned or thrown. *)
Definition yields_once (y : jsval) (g : bool) (m : resume_type) (v : jsval)
  : reaction bool :=
  if g then
    {| step_calls := [];
       step_end := match m with
                   | YIELDABLE_THROW => Threw bool v
                   | _ => Returned bool v
                   end |}
  else {| step_calls := []; step_end := Yielded y true |}.

Definition yielding (y : jsval) : engine bool :=
  new_TaskInstanceState (yields_once y) false host quiet_env false
    PERFORM_TYPE_DEFAULT.

(** A promise-like object. *)
Definition a_thenable : jsval :=
  VObj (Obj None VUndefined None (Some (Thenable 7 [])) None None None).

(** A [RawValue] around [7] that also exposes a yieldable handler, a
    [then] method and a disposer. *)
Definition raw_lookalike : jsval :=
  VObj (Obj (Some (VNum 7)) (VFun 9)
            (Some (Handler 1 [] (HReturn VUndefined)))
            (Some (Thenable 2 [])) None None None).

(** A yieldable whose handler throws ["boom"], with a disposer attached. *)
Definition thrower : jsval :=
  VObj (Obj None (VFun 3)
            (Some (Handler 4 [] (HThrow (VStr "boom"))))
            None None None None).

(** A plain object with a disposer attached. *)
Definition disposable : jsval :=
  VObj (Obj None (VFun 3) None None None None None).

Definition yielded (y : jsval) : GeneratorStepResult :=
  {| sr_value := y; sr_done := false; sr_errored := false |}.

(** An instance suspended on a promise, and the same instance after
    [cancel("stop")]: its cancel request is pending. *)
Definition waiting : engine bool := run [OpStart] (yielding a_thenable).

Definition cancel_pending : engine bool :=
  run [OpStart; OpCancel (VStr "stop")] (yielding a_thenable).

(** [function * () { throw "boom"; }]. *)
Definition throws_boom (g : unit) (m : resume_type) (v : jsval)
  : reaction unit :=
  {| step_calls := []; step_end := Threw unit (VStr "boom") |}.

Definition failing : engine unit :=
  new_TaskInstanceState throws_boom tt host quiet_env false
    PERFORM_TYPE_DEFAULT.

(** A body that waits on a promise and, when resumed, cancels its own
    instance and then throws. *)
Definition cancels_itself (g : bool) (m : resume_type) (v : jsval)
  : reaction bool :=
  if g then
    {| step_calls := [VStr "self"]; step_end := Threw bool (VStr "late") |}
  else {| step_calls := []; step_end := Yielded a_thenable true |}.

Definition self_canceling : engine bool :=
  run [OpStart]
    (new_TaskInstanceState cancels_itself false host quiet_env false
       PERFORM_TYPE_DEFAULT).

(** A child suspended on a promise and yielded into parent 1 at ticket 2. *)
Definition yielded_child : engine bool :=
  run [OpStart; OpOnYielded 1 2] (yielding a_thenable).

(** * Properties *)

Section Properties.

Variable G : Type.
Implicit Types s : engine G.

Lemma count_app f l1 l2 : count f (l1 ++ l2) = (count f l1 + count f l2)%nat.
Proof. unfold count. now rewrite filter_app, length_app. Qed.

Lemma count_one f e : count f [e] = if f e then 1%nat else O.
Proof. unfold count; simpl. now destruct (f e). Qed.

Lemma count_none f l :
  (forall e, In e l -> f e = false) -> count f l = O.
Proof.
  unfold count. induction l as [|e l IH]; simpl; intros H; [reflexivity|].
  rewrite (H e (or_introl eq_refl)). apply IH. intros; apply H; now right.
Qed.

Lemma evolves_refl s : evolves s s.
Proof.
  unfold evolves, quiet.
  split; [lia|]. split; [left; repeat split; auto|auto].
Qed.

Lemma evolves_finished s s' :
  evolves s s' -> isFinished (state s) = true ->
  isFinished (state s') = true.
Proof.
  intros (_ & [(H & _)|(H & _)] & _) F; congruence.
Qed.

Lemma evolves_trans s1 s2 s3 :
  evolves s1 s2 -> evolves s2 s3 -> evolves s1 s3.
Proof.
  unfold evolves, quiet, finishes.
  intros (Hi & Hs & Ha) (Hi' & Hs' & Ha').
  split; [lia|]. split.
  - destruct Hs as [(A1 & A2 & A3 & A4 & A5)|(B1 & B2 & B3 & B4 & B5 & B6)];
      destruct Hs' as [(A1' & A2' & A3' & A4' & A5')|(B1' & B2' & B3' & B4' & B5' & B6')].
    + left. repeat split; try congruence; auto.
      intros F. rewrite A5', A5; auto. congruence.
    + right. repeat split; try congruence. lia.
    + right. repeat split; try congruence; try lia.
      apply A4'; [|congruence]. intros _. exact B3.
    + congruence.
  - intros H. destruct (Ha H) as (H1 & H2). destruct (Ha' H1) as (H3 & H4).
    split; congruence.
Qed.

Lemma called_back_app l1 l2 :
  called_back (l1 ++ l2) = called_back l1 ++ called_back l2.
Proof. apply flat_map_app. Qed.

Lemma evolves_quiet s s' d :
  trace s' = trace s ++ d ->
  silent d ->
  isFinished (state s') = isFinished (state s) ->
  index s <= index s' ->
  (asyncErrorsHandled s = true -> asyncErrorsHandled s' = true) ->
  (fc_ok s -> fc_ok s') ->
  evolves s s'.
Proof.
  intros Ht (D1 & D2 & D3 & D4) Hf Hi Ha Hc.
  unfold evolves, quiet, terminals, finalizations, unhandled_reports.
  rewrite Ht, !count_app, called_back_app, D1, D2, D3, D4, app_nil_r.
  split; [exact Hi|]. split.
  - left. repeat split; auto.
  - intros H. split; auto.
Qed.

Lemma silent_nil : silent [].
Proof. repeat split. Qed.

Lemma silent_app d1 d2 : silent d1 -> silent d2 -> silent (d1 ++ d2).
Proof.
  unfold silent. intros (A & B & C & D) (A' & B' & C' & D').
  rewrite !count_app, called_back_app, A, B, C, D, A', B', C', D'. auto.
Qed.

Ltac quiet_with delta :=
  apply evolves_quiet with (d := delta);
  [ simpl; rewrite ?app_nil_r; reflexivity
  | try (repeat split; reflexivity)
  | simpl; try reflexivity
  | simpl; try lia
  | simpl; auto
  | unfold fc_ok; simpl; auto ].

Lemma advanceIndex_evolves i s : evolves s (snd (advanceIndex i s)).
Proof.
  unfold advanceIndex. destruct (index s =? i); simpl.
  - quiet_with (@nil event).
  - apply evolves_refl.
Qed.

Lemma proceedAsync_index t v s : index (proceedAsync t v s) = index s + 1.
Proof. unfold proceedAsync, advanceIndex. rewrite Z.eqb_refl. reflexivity. Qed.

Lemma proceedAsync_evolves t v s : evolves s (proceedAsync t v s).
Proof.
  unfold proceedAsync, advanceIndex. rewrite Z.eqb_refl. simpl.
  quiet_with (@nil event).
Qed.

Lemma requestCancel_evolves r s : evolves s (snd (requestCancel r s)).
Proof.
  unfold requestCancel. destruct (cancelRequest s); [apply evolves_refl|].
  destruct (isFinished (state s)); [apply evolves_refl|]. simpl.
  quiet_with (@nil event).
Qed.

Lemma proceedChecked_evolves i t v s : evolves s (proceedChecked i t v s).
Proof.
  unfold proceedChecked. destruct (isFinished (state s)); [apply evolves_refl|].
  pose proof (advanceIndex_evolves i s) as H.
  destruct (advanceIndex i s) as [r s1]. simpl in H.
  destruct (advanced r); simpl; [|exact H].
  eapply evolves_trans; [exact H|].
  destruct t; try apply proceedAsync_evolves.
  eapply evolves_trans; [apply requestCancel_evolves|apply proceedAsync_evolves].
Qed.


Ltac break :=
  repeat match goal with
         | |- context [if ?b then _ else _] => destruct b eqn:?; simpl
         | |- context [match ?x with _ => _ end] => destruct x eqn:?; simpl
         end.

Lemma resume_each_evolves i l s : evolves s (resume_each i l s).
Proof.
  unfold resume_each. revert s.
  induction l as [|a l IH]; intros s; simpl; [apply evolves_refl|].
  eapply evolves_trans; [apply proceedChecked_evolves|apply IH].
Qed.

Lemma emit_evolves e s :
  is_terminal e = false -> is_finalization e = false ->
  is_unhandled_report e = false -> called_back [e] = [] ->
  evolves s (emit e s).
Proof.
  intros A B C D. quiet_with [e].
  unfold silent. rewrite !count_one, A, B, C, D. auto.
Qed.

Lemma addDisposer_evolves d s : evolves s (addDisposer d s).
Proof.
  unfold addDisposer. destruct d; try apply evolves_refl.
  quiet_with (@nil event).
Qed.

Lemma silent_disposers (r : jsval) ds :
  silent (map (fun d => EvDisposer d r) ds).
Proof.
  repeat split;
    try (apply count_none; intros e H;
         apply in_map_iff in H; destruct H as (d & <- & _); reflexivity).
  induction ds; simpl; auto.
Qed.

Lemma dispose_evolves r s : evolves s (dispose r s).
Proof.
  unfold dispose. destruct (disposers s) as [|d ds] eqn:E; [apply evolves_refl|].
  apply evolves_quiet with (d := map (fun d => EvDisposer d r) (d :: ds));
    simpl; auto; try lia. apply (silent_disposers r (d :: ds)).
Qed.

Lemma maybeResolveDefer_evolves s : evolves s (maybeResolveDefer s).
Proof.
  unfold maybeResolveDefer.
  destruct (negb (defer s) || negb (isFinished (state s))); [apply evolves_refl|].
  destruct (completionState (state s)) as [[| |]|]; apply emit_evolves; reflexivity.
Qed.

Lemma maybeThrowUnhandledTaskErrorLater_evolves s :
  evolves s (maybeThrowUnhandledTaskErrorLater s).
Proof.
  unfold maybeThrowUnhandledTaskErrorLater.
  match goal with |- context [if ?b then _ else _] => destruct b end;
    [|apply evolves_refl].
  quiet_with (@nil event).
Qed.

Lemma count_callbacks f st l :
  (forall cb, f (EvFinalizeCallback cb) = false) ->
  (forall p i m v, f (EvParentProceedChecked p i m v) = false) ->
  count f (flat_map (run_callback st) l) = O.
Proof.
  intros A B. apply count_none. intros e H.
  apply in_flat_map in H. destruct H as (cb & _ & H).
  unfold run_callback in H. destruct H as [<-|H]; [apply A|].
  destruct cb; [contradiction|].
  destruct (completionState st) as [[| |]|]; simpl in H;
    try contradiction; destruct H as [<-|[]]; apply B.
Qed.

Lemma called_back_callbacks st l :
  called_back (flat_map (run_callback st) l) = l.
Proof.
  induction l as [|cb l IH]; simpl; [reflexivity|].
  rewrite called_back_app, IH.
  destruct cb; simpl; [reflexivity|].
  destruct (completionState st) as [[| |]|]; reflexivity.
Qed.

Lemma runFinalizeCallbacks_evolves s :
  isFinished (state s) = true -> evolves s (runFinalizeCallbacks s).
Proof.
  intros F. unfold runFinalizeCallbacks.
  eapply evolves_trans; [|apply maybeThrowUnhandledTaskErrorLater_evolves].
  eapply evolves_trans; [|apply maybeResolveDefer_evolves].
  match goal with |- evolves _ ?x => set (s2 := x) end.
  unfold evolves, quiet, terminals, finalizations, unhandled_reports, fc_ok.
  simpl. rewrite !count_app, !count_callbacks by reflexivity.
  rewrite !Nat.add_0_r.
  split; [lia|]. split; [|auto].
  left. repeat split; auto. congruence.
Qed.

(** What [runFinalizeCallbacks] leaves alone. *)
Lemma runFinalizeCallbacks_frame s :
  let s' := runFinalizeCallbacks s in
  finalizeCallbacks s' = [] /\ state s' = state s /\ index s' = index s
  /\ cancelRequest s' = cancelRequest s
  /\ generatorState s' = generatorState s
  /\ asyncErrorsHandled s' = asyncErrorsHandled s
  /\ steps s' = steps s
  /\ called_back (trace s') = called_back (trace s) ++ finalizeCallbacks s.
Proof.
  unfold runFinalizeCallbacks, maybeThrowUnhandledTaskErrorLater,
    maybeResolveDefer, steps; simpl.
  assert (S4 : count is_step
                 (flat_map (run_callback (state s)) (finalizeCallbacks s)) = O)
    by (apply count_callbacks; reflexivity).
  pose proof (called_back_callbacks (state s) (finalizeCallbacks s)) as S5.
  break; rewrite ?count_app, ?called_back_app, ?S4, ?S5, ?count_one; simpl;
    rewrite ?app_nil_r; repeat split; auto; lia.
Qed.


Lemma finalizeShared_finishes p s :
  isFinished (state s) = false -> dispatchable p s ->
  finishes s (finalizeShared p s).
Proof.
  intros Hf Hd. unfold finalizeShared.
  match goal with
  | |- context [runFinalizeCallbacks ?x] => set (s2 := x)
  end.
  pose proof (runFinalizeCallbacks_frame s2) as (F1 & F2 & F3 & F4 & F5 & F6 & _).
  assert (Hfin2 : isFinished (state s2) = true) by reflexivity.
  pose proof (runFinalizeCallbacks_evolves s2 Hfin2) as (_ & Hq & _).
  destruct Hq as [(Q1 & Q2 & Q3 & _)|(Q1 & _)]; [|congruence].
  set (s3 := runFinalizeCallbacks s2) in *.
  assert (T2 : terminals s2 = terminals s).
  { unfold terminals, s2, setState; simpl. rewrite count_app, count_one; simpl. lia. }
  assert (Z2 : finalizations s2 = S (finalizations s)).
  { unfold finalizations, s2, setState; simpl. rewrite count_app, count_one; simpl. lia. }
  assert (C2 : cancelRequest s2 = cancelRequest s) by reflexivity.
  assert (I2 : index s2 = index s + 1) by reflexivity.
  unfold finishes, dispatchable in *. simpl p_completionState in *.
  unfold dispatchFinalizeEvents.
  destruct (p_completionState p) as [[| |]|]; try contradiction.
  - unfold terminals, finalizations in *; simpl; rewrite !count_app.
    rewrite !count_one; simpl.
    repeat split; auto; try lia; try congruence.
  - unfold terminals, finalizations in *; simpl; rewrite !count_app.
    rewrite !count_one; simpl.
    repeat split; auto; try lia; try congruence.
  - rewrite F4, C2. destruct (cancelRequest s) as [r|]; [|congruence].
    unfold terminals, finalizations in *; simpl; rewrite !count_app.
    rewrite !count_one; simpl.
    repeat split; auto; try lia; try congruence.
Qed.

Lemma finalizeShared_frame p s :
  let s' := finalizeShared p s in
  index s' = index s + 1
  /\ asyncErrorsHandled s' = asyncErrorsHandled s
  /\ unhandled_reports s' = unhandled_reports s
  /\ cancelRequest s' = cancelRequest s
  /\ generatorState s' = generatorState s
  /\ steps s' = steps s.
Proof.
  unfold finalizeShared, dispatchFinalizeEvents, runFinalizeCallbacks,
    maybeThrowUnhandledTaskErrorLater, maybeResolveDefer, setState,
    unhandled_reports, steps; simpl.
  pose proof (count_callbacks is_unhandled_report
    (assign (state s)
       {| p_hasStarted := p_hasStarted p; p_isFinished := Some true;
          p_isSuccessful := p_isSuccessful p; p_isError := p_isError p;
          p_isCanceled := p_isCanceled p;
          p_completionState := p_completionState p;
          p_value := p_value p; p_error := p_error p;
          p_cancelReason := p_cancelReason p |}) (finalizeCallbacks s)
    (fun _ => eq_refl) (fun _ _ _ _ => eq_refl))
    as S3.
  match type of S3 with count _ ?l = _ =>
    assert (S4 : count is_step l = O) by (apply count_callbacks; reflexivity)
  end.
  break; rewrite ?count_app, ?S3, ?S4, ?count_one; simpl; repeat split;
    auto; try lia.
Qed.



Lemma emit_frame e s :
  let s' := emit e s in
  state s' = state s /\ index s' = index s /\ cancelRequest s' = cancelRequest s
  /\ generatorState s' = generatorState s
  /\ asyncErrorsHandled s' = asyncErrorsHandled s
  /\ debug s' = debug s /\ env s' = env s /\ delegate s' = delegate s.
Proof. simpl. repeat split. Qed.

Lemma evolves_of_finishes s s' :
  finishes s s' ->
  (asyncErrorsHandled s' = asyncErrorsHandled s) ->
  (unhandled_reports s' = unhandled_reports s) ->
  evolves s s'.
Proof.
  intros F A U. split; [destruct F as (_ & _ & _ & F & _); lia|].
  split; [right; exact F|]. intros H. split; congruence.
Qed.

Lemma finalizeShared_evolves p s :
  isFinished (state s) = false -> dispatchable p s ->
  evolves s (finalizeShared p s).
Proof.
  intros Hf Hd.
  pose proof (finalizeShared_frame p s) as (_ & A & U & _).
  apply evolves_of_finishes; auto using finalizeShared_finishes.
Qed.

Lemma finalizeWithCancel_evolves s :
  isFinished (state s) = false -> cancelRequest s <> None ->
  evolves s (finalizeWithCancel s).
Proof.
  intros Hf Hc. unfold finalizeWithCancel.
  destruct (cancelRequest s) as [r|] eqn:E; [|congruence].
  match goal with
  | |- evolves _ (finalizeShared ?p ?x) => set (pp := p); set (x0 := x)
  end.
  assert (Hx : evolves s x0 /\ isFinished (state x0) = false
               /\ cancelRequest x0 = Some r).
  { unfold x0. destruct (debug (emit _ s) || _).
    - split; [|split; [exact Hf|exact E]].
      eapply evolves_trans; apply emit_evolves; reflexivity.
    - split; [|split; [exact Hf|exact E]].
      apply emit_evolves; reflexivity. }
  destruct Hx as (H1 & H2 & H3).
  eapply evolves_trans; [exact H1|].
  apply finalizeShared_evolves; [exact H2|].
  unfold dispatchable, pp. cbn [p_completionState]. congruence.
Qed.

Lemma finalize_evolves v c s :
  isFinished (state s) = false -> c <> COMPLETION_CANCEL ->
  evolves s (finalize v c s).
Proof.
  intros Hf Hc. unfold finalize.
  destruct (cancelRequest s) as [r|] eqn:E.
  - apply finalizeWithCancel_evolves; congruence.
  - apply finalizeShared_evolves; [exact Hf|].
    unfold dispatchable. destruct c; cbn [p_completionState]; auto; congruence.
Qed.

Lemma cancel_evolves r s : evolves s (cancel r s).
Proof.
  unfold cancel, requestCancel.
  destruct (cancelRequest s) as [q|] eqn:E; cbn [negb fst snd]; [apply evolves_refl|].
  destruct (isFinished (state s)) eqn:F; cbn [negb]; [apply evolves_refl|].
  eapply evolves_trans.
  - apply evolves_quiet with (d := @nil event)
      (s' := set_cancelRequest (Some {| kind := CANCEL_KIND_EXPLICIT; reason := r |}) s);
      cbn; rewrite ?app_nil_r; auto using silent_nil; lia.
  - cbn [state set_cancelRequest]. destruct (hasStarted (state s)).
    + apply proceedAsync_evolves.
    + apply finalizeWithCancel_evolves; cbn; congruence.
Qed.

Lemma fold_cancel_evolves l s :
  evolves s (fold_left (fun acc why => cancel why acc) l s).
Proof.
  revert s. induction l as [|r l IH]; intros s; simpl; [apply evolves_refl|].
  eapply evolves_trans; [apply cancel_evolves|apply IH].
Qed.

Lemma generatorStep_evolves v m s : evolves s (snd (generatorStep v m s)).
Proof.
  unfold generatorStep.
  match goal with
  | |- context [fold_left ?f ?l ?x] =>
      pose proof (fold_cancel_evolves l x) as H; set (s2 := fold_left f l x) in *
  end.
  assert (H1 : evolves s s2).
  { eapply evolves_trans; [|exact H]. apply emit_evolves; reflexivity. }
  clear H.
  destruct (GeneratorState_step (generatorState s2) _) as [sr gs].
  cbn [snd].
  eapply evolves_trans; [exact H1|].
  match goal with
  | |- evolves _ (if _ then ?a else ?b) =>
      assert (H2 : evolves s2 b)
        by (quiet_with (@nil event))
  end.
  destruct (expectsLinkedYield _); [|exact H2].
  eapply evolves_trans; [exact H2|].
  match goal with
  | |- evolves _ (set_expectsLinkedYield false ?x) =>
      apply evolves_trans with x; [|quiet_with (@nil event)]
  end.
  destruct (_ || _); [apply emit_evolves; reflexivity|apply evolves_refl].
Qed.

Lemma invokeYieldable_evolves y s : evolves s (invokeYieldable y s).
Proof.
  unfold invokeYieldable.
  destruct (get_yieldable y) as [h|].
  - match goal with
    | |- context [resume_each ?i ?l ?x] =>
        pose proof (resume_each_evolves i l x) as H;
        set (s3 := resume_each i l x) in *
    end.
    assert (H1 : evolves s s3).
    { eapply evolves_trans; [|exact H].
      eapply evolves_trans; apply emit_evolves; reflexivity. }
    eapply evolves_trans; [exact H1|].
    destruct (h_result h).
    + apply addDisposer_evolves.
    + apply emit_evolves; reflexivity.
  - eapply evolves_trans; apply emit_evolves; reflexivity.
Qed.

Lemma handleYieldedUnknownThenable_evolves th s :
  evolves s (handleYieldedUnknownThenable th s).
Proof.
  unfold handleYieldedUnknownThenable.
  eapply evolves_trans; [|apply resume_each_evolves].
  apply emit_evolves; reflexivity.
Qed.

Lemma handleYieldedValue_evolves sr s : evolves s (handleYieldedValue sr s).
Proof.
  unfold handleYieldedValue, proceedWithSimpleValue.
  destruct (negb (truthy (sr_value sr))); [apply proceedAsync_evolves|].
  destruct (get_raw (sr_value sr)); [apply proceedAsync_evolves|].
  eapply evolves_trans; [apply addDisposer_evolves|].
  destruct (get_yieldable (sr_value sr)); [apply invokeYieldable_evolves|].
  destruct (get_then (sr_value sr));
    [apply handleYieldedUnknownThenable_evolves|apply proceedAsync_evolves].
Qed.

(** An instance that [evolves] without moving its index is as finished as
    it was. *)
Lemma evolves_same_index s s' :
  evolves s s' -> index s' = index s ->
  isFinished (state s') = isFinished (state s).
Proof.
  intros (_ & [(H & _)|(_ & _ & _ & H & _)] & _) E; [exact H|lia].
Qed.

Lemma handleResolvedContinueValue_evolves m v s :
  isFinished (state s) = false ->
  evolves s (handleResolvedContinueValue m v s).
Proof.
  intros Hf. unfold handleResolvedContinueValue.
  pose proof (generatorStep_evolves v m s) as H.
  destruct (generatorStep v m s) as [sr s1]. cbn [snd] in H.
  unfold advanceIndex.
  destruct (index s1 =? index s) eqn:E; cbn [advanced negb]; [|exact H].
  apply Z.eqb_eq in E.
  destruct (negb (index s1 + 1 =? 0)); cbn [negb].
  - eapply evolves_trans; [exact H|].
    pose proof (evolves_same_index H E) as F.
    match goal with
    | |- evolves _ (if _ then ?f ?x else _) =>
        assert (H2 : evolves s1 x) by (quiet_with (@nil event))
    end.
    eapply evolves_trans; [exact H2|].
    destruct (sr_errored sr).
    + apply finalize_evolves; [cbn; congruence|discriminate].
    + apply handleYieldedValue_evolves.
  - eapply evolves_trans; [exact H|]. quiet_with (@nil event).
Qed.

Lemma handleResolvedReturnedValue_evolves t v s :
  isFinished (state s) = false ->
  evolves s (handleResolvedReturnedValue t v s).
Proof.
  intros Hf. destruct t; cbn [handleResolvedReturnedValue];
    try (apply finalize_evolves; [exact Hf|discriminate]).
  apply evolves_refl.
Qed.

Lemma dispose_isFinished r s :
  isFinished (state (dispose r s)) = isFinished (state s).
Proof. unfold dispose. destruct (disposers s); reflexivity. Qed.

Lemma proceedSync_evolves t v s : evolves s (proceedSync t v s).
Proof.
  unfold proceedSync.
  destruct (isFinished (state s)) eqn:F; [apply evolves_refl|].
  eapply evolves_trans; [apply (dispose_evolves VUndefined)|].
  destruct (done _).
  - apply handleResolvedReturnedValue_evolves. now rewrite dispose_isFinished.
  - apply handleResolvedContinueValue_evolves. now rewrite dispose_isFinished.
Qed.

Lemma start_evolves s : evolves s (start s).
Proof.
  unfold start. destruct (_ || _); [apply evolves_refl|].
  eapply evolves_trans; [|apply emit_evolves; reflexivity].
  eapply evolves_trans; [|apply proceedSync_evolves].
  unfold setState.
  apply evolves_quiet with (d := [EvSetState
    {| p_hasStarted := Some true; p_isFinished := None;
       p_isSuccessful := None; p_isError := None;
       p_isCanceled := None; p_completionState := None;
       p_value := None; p_error := None; p_cancelReason := None |}]);
    cbn; auto; try lia. repeat split.
Qed.

Lemma onFinalize_evolves cb s : evolves s (onFinalize cb s).
Proof.
  unfold onFinalize. cbn [state set_finalizeCallbacks].
  destruct (isFinished (state s)) eqn:F.
  - pose proof (runFinalizeCallbacks_evolves
                  (set_finalizeCallbacks (finalizeCallbacks s ++ [cb]) s))
      as (Hi & Hq & Ha); [exact F|].
    pose proof (runFinalizeCallbacks_frame
                  (set_finalizeCallbacks (finalizeCallbacks s ++ [cb]) s))
      as (F1 & _).
    split; [exact Hi|]. split; [|exact Ha].
    destruct Hq as [(A & B & C & _)|(A & _)]; [|cbn in A; congruence].
    left. repeat split; auto; [intros _ _; exact F1|congruence].
  - quiet_with (@nil event). congruence.
Qed.

Lemma promise_evolves s : evolves s (promise s).
Proof.
  unfold promise. destruct (negb (defer s)); [|apply evolves_refl].
  eapply evolves_trans; [|apply maybeResolveDefer_evolves].
  quiet_with [EvDefer].
Qed.

Lemma onYielded_evolves parent i s : evolves s (snd (onYielded parent i s)).
Proof.
  unfold onYielded. cbn [snd].
  eapply evolves_trans; [|apply onFinalize_evolves].
  quiet_with (@nil event).
Qed.

Lemma run_thunk_evolves th s : evolves s (run_thunk th s).
Proof.
  destruct th; cbn [run_thunk]; [apply proceedSync_evolves|].
  destruct (asyncErrorsHandled s) eqn:A; cbn [negb]; [apply evolves_refl|].
  split; [simpl; lia|]. split.
  - left. unfold quiet, terminals, finalizations, fc_ok. simpl.
    rewrite !count_app, !count_one, called_back_app. simpl.
    rewrite app_nil_r. repeat split; auto; lia.
  - congruence.
Qed.

Lemma turn_evolves n s : evolves s (turn n s).
Proof.
  unfold turn. destruct (nth_error (env_queue s) n); [|apply evolves_refl].
  eapply evolves_trans; [|apply run_thunk_evolves].
  quiet_with (@nil event).
Qed.

Lemma apply_op_evolves o s : evolves s (apply_op o s).
Proof.
  destruct o; cbn [apply_op];
    auto using start_evolves, cancel_evolves, proceedChecked_evolves,
      proceedSync_evolves, onFinalize_evolves, promise_evolves,
      onYielded_evolves, turn_evolves.
Qed.

Lemma run_evolves ops s : evolves s (run ops s).
Proof.
  unfold run. revert s.
  induction ops as [|o ops IH]; intros s; simpl; [apply evolves_refl|].
  eapply evolves_trans; [apply apply_op_evolves|apply IH].
Qed.

(** ** The ledger of finalize callbacks

    No method loses, duplicates or reorders a registered callback: the
    callbacks called so far followed by those still waiting stay the
    same, except that [onFinalize] adds its argument at the end. *)












Lemma ledger_maybeThrow s :
  ledger (maybeThrowUnhandledTaskErrorLater s) = ledger s.
Proof.
  unfold maybeThrowUnhandledTaskErrorLater.
  match goal with |- context [if ?b then _ else _] => destruct b end;
    reflexivity.
Qed.






















(** ** Ticketing *)

Lemma proceedChecked_stale i t v s :
  accepts i s = false -> proceedChecked i t v s = s.
Proof.
  unfold accepts, proceedChecked, advanceIndex.
  destruct (isFinished (state s)); simpl; [reflexivity|].
  intros H; rewrite H. reflexivity.
Qed.

Lemma proceedChecked_honored_index i t v s :
  accepts i s = true -> i < index (proceedChecked i t v s).
Proof.
  unfold accepts, proceedChecked, advanceIndex.
  destruct (isFinished (state s)); simpl; [discriminate|].
  intros H; rewrite H. apply Z.eqb_eq in H. cbn [advanced].
  destruct (negb (index s + 1 =? 0)); cbn [negb].
  - destruct t; unfold proceedWithCancelAsync;
      rewrite proceedAsync_index;
      try (pose proof (requestCancel_evolves
                  {| kind := CANCEL_KIND_YIELDED; reason := VUndefined |}
                  (set_index (index s + 1) s)) as (Hi & _);
           simpl in Hi);
      simpl; lia.
  - simpl; lia.
Qed.

Lemma honored_stale i ops s : i < index s -> honored i ops s = O.
Proof.
  revert s. induction ops as [|o ops IH]; intros s Hi; simpl; [reflexivity|].
  rewrite IH.
  - destruct o as [| |j t v| | | | |]; try reflexivity.
    unfold accepts. destruct (j =? i); simpl; [|reflexivity].
    assert (E : (index s =? i) = false) by (apply Z.eqb_neq; lia).
    rewrite E, andb_false_r. reflexivity.
  - pose proof (apply_op_evolves o s) as (H & _). lia.
Qed.

Lemma honored_at_most_once i ops s : (honored i ops s <= 1)%nat.
Proof.
  revert s. induction ops as [|o ops IH]; intros s; simpl; [lia|].
  destruct o as [| |j t v| | | | |]; try apply IH.
  destruct ((j =? i) && accepts i s) eqn:E; [|apply IH].
  apply andb_prop in E. destruct E as (E1 & E2).
  apply Z.eqb_eq in E1. subst j.
  rewrite honored_stale; [lia|].
  cbn [apply_op]. now apply proceedChecked_honored_index.
Qed.

(** ** What a resumption attempt leaves alone *)

Lemma proceedAsync_frame t v s :
  let s' := proceedAsync t v s in
  state s' = state s /\ generatorState s' = generatorState s
  /\ disposers s' = disposers s /\ trace s' = trace s
  /\ cancelRequest s' = cancelRequest s
  /\ env_queue s' = env_queue s ++ [ThProceedSync t v].
Proof.
  unfold proceedAsync, advanceIndex. rewrite Z.eqb_refl. simpl.
  repeat split.
Qed.

Lemma proceedChecked_frame i t v s :
  let s' := proceedChecked i t v s in
  state s' = state s /\ generatorState s' = generatorState s
  /\ disposers s' = disposers s /\ trace s' = trace s.
Proof.
  unfold proceedChecked, advanceIndex, proceedWithCancelAsync, requestCancel.
  destruct (isFinished (state s)) eqn:F; [repeat split|].
  destruct (index s =? i); cbn [advanced negb]; [|repeat split].
  destruct (negb (index s + 1 =? 0)); cbn [negb]; [|repeat split].
  destruct t;
    try (destruct (proceedAsync_frame YIELDABLE_CONTINUE v (set_index (index s + 1) s))
           as (A & B & C & D & _); repeat split; assumption);
    try (destruct (proceedAsync_frame YIELDABLE_THROW v (set_index (index s + 1) s))
           as (A & B & C & D & _); repeat split; assumption);
    try (destruct (proceedAsync_frame YIELDABLE_RETURN v (set_index (index s + 1) s))
           as (A & B & C & D & _); repeat split; assumption).
  cbn [cancelRequest set_index state]. rewrite F.
  destruct (cancelRequest s); cbn [snd];
    match goal with
    | |- context [proceedAsync ?a ?b ?x] =>
        destruct (proceedAsync_frame a b x) as (A & B & C & D & _)
    end; repeat split; assumption.
Qed.

Lemma resume_each_frame i l s :
  let s' := resume_each i l s in
  state s' = state s /\ generatorState s' = generatorState s
  /\ disposers s' = disposers s /\ trace s' = trace s.
Proof.
  unfold resume_each. revert s.
  induction l as [|a l IH]; intros s; simpl; [repeat split|].
  destruct (IH (proceedChecked i (fst a) (snd a) s)) as (A & B & C & D).
  destruct (proceedChecked_frame i (fst a) (snd a) s) as (A' & B' & C' & D').
  repeat split; congruence.
Qed.

(** ** Instances driven from their construction *)

Lemma evolves_settled s s' : evolves s s' -> settled s -> settled s'.
Proof.
  unfold settled.
  intros (_ & [(A1 & A2 & A3 & A4 & A5)|(B1 & B2 & B3 & B4 & B5 & B6)] & _)
         (S1 & S2 & S3 & S4).
  - rewrite A1, A2, A3. repeat split; auto.
    intros F. rewrite A5; [apply S4|]; congruence.
  - rewrite B1 in *. rewrite B2, B5, B6, S1, S2.
    repeat split; auto; [intros _; exact B3|discriminate].
Qed.

Lemma settled_new fn (g : G) d e dbg pt :
  settled (new_TaskInstanceState fn g d e dbg pt).
Proof. repeat split; auto. Qed.

Lemma run_settled ops fn (g : G) d e dbg pt :
  settled (run ops (new_TaskInstanceState fn g d e dbg pt)).
Proof.
  eapply evolves_settled; [apply run_evolves|apply settled_new].
Qed.

Lemma cancel_finished r s : isFinished (state s) = true -> cancel r s = s.
Proof.
  intros F. unfold cancel, requestCancel. rewrite F.
  destruct (cancelRequest s); reflexivity.
Qed.

Lemma proceedChecked_finished i t v s :
  isFinished (state s) = true -> proceedChecked i t v s = s.
Proof. intros F. unfold proceedChecked. now rewrite F. Qed.

Lemma proceedSync_finished t v s :
  isFinished (state s) = true -> proceedSync t v s = s.
Proof. intros F. unfold proceedSync. now rewrite F. Qed.

Lemma start_guarded s :
  (hasStarted (state s) || is_some (cancelRequest s)) = true -> start s = s.
Proof. intros H. unfold start. now rewrite H. Qed.

(** A finished instance never steps its body again. *)
Lemma finished_quiescent o s :
  isFinished (state s) = true ->
  isFinished (state (apply_op o s)) = true
  /\ steps (apply_op o s) = steps s
  /\ generatorState (apply_op o s) = generatorState s.
Proof.
  intros F.
  split; [exact (evolves_finished (apply_op_evolves o s) F)|].
  destruct o; cbn [apply_op];
    rewrite ?cancel_finished, ?proceedChecked_finished,
      ?proceedSync_finished by exact F; auto.
  - unfold start. destruct (_ || _); [auto|].
    rewrite proceedSync_finished by exact F.
    unfold steps; simpl. rewrite !count_app, !count_one; simpl. split; [lia|auto].
  - unfold onFinalize. cbn [state set_finalizeCallbacks]. rewrite F.
    destruct (runFinalizeCallbacks_frame
                (set_finalizeCallbacks (finalizeCallbacks s ++ [CbHost id]) s))
      as (_ & _ & _ & _ & A & _ & B & _). auto.
  - unfold promise, maybeResolveDefer. destruct (negb (defer s)); [|auto].
    unfold steps; simpl. rewrite F; simpl.
    destruct (completionState (state s)) as [[| |]|]; simpl;
      rewrite !count_app, !count_one; simpl; split; auto; lia.
  - unfold onYielded, onFinalize. cbn [snd state set_finalizeCallbacks set_asyncErrorsHandled].
    rewrite F.
    match goal with
    | |- context [runFinalizeCallbacks ?x] =>
        destruct (runFinalizeCallbacks_frame x)
          as (_ & _ & _ & _ & A & _ & B & _)
    end. auto.
  - unfold turn. destruct (nth_error (env_queue s) n) as [th|]; [|auto].
    destruct th; cbn [run_thunk].
    + rewrite proceedSync_finished by exact F. auto.
    + destruct (negb _); [|auto].
      unfold steps; simpl. rewrite !count_app, !count_one; simpl. split; [lia|auto].
Qed.

Lemma finished_run_quiescent ops s :
  isFinished (state s) = true ->
  isFinished (state (run ops s)) = true
  /\ steps (run ops s) = steps s
  /\ generatorState (run ops s) = generatorState s.
Proof.
  unfold run. revert s.
  induction ops as [|o ops IH]; intros s F; simpl; [auto|].
  destruct (finished_quiescent o s F) as (A & B & C).
  destruct (IH _ A) as (A' & B' & C').
  repeat split; congruence.
Qed.

(** ** What finalization publishes *)

Lemma delivered_emit e s :
  delivered (emit e s) = delivered s ++ (if is_terminal e then [e] else []).
Proof. unfold delivered; simpl. now rewrite filter_app. Qed.

Lemma filter_none (f : event -> bool) l : count f l = O -> filter f l = [].
Proof. unfold count. apply length_zero_iff_nil. Qed.

Lemma runFinalizeCallbacks_delivered s :
  delivered (runFinalizeCallbacks s) = delivered s.
Proof.
  unfold runFinalizeCallbacks, maybeThrowUnhandledTaskErrorLater,
    maybeResolveDefer, delivered; simpl.
  assert (H : filter is_terminal
                (flat_map (run_callback (state s)) (finalizeCallbacks s)) = [])
    by (apply filter_none, count_callbacks; reflexivity).
  break; rewrite ?filter_app, ?H; simpl; now rewrite ?app_nil_r.
Qed.

(** The state and the terminal event that [finalizeShared] publishes. *)
Lemma finalizeShared_outcome p s :
  let s' := finalizeShared p s in
  state s' =
    assign (state s)
      {| p_hasStarted := p_hasStarted p; p_isFinished := Some true;
         p_isSuccessful := p_isSuccessful p; p_isError := p_isError p;
         p_isCanceled := p_isCanceled p;
         p_completionState := p_completionState p;
         p_value := p_value p; p_error := p_error p;
         p_cancelReason := p_cancelReason p |}
  /\ delivered s' =
       delivered s ++
       match p_completionState p with
       | Some COMPLETION_SUCCESS => [EvOnSuccess]
       | Some COMPLETION_ERROR => [EvOnError (or_else (p_error p) (error (state s)))]
       | Some COMPLETION_CANCEL =>
           match cancelRequest s with
           | Some r => [EvOnCancel (reason r)]
           | None => []
           end
       | None => []
       end.
Proof.
  unfold finalizeShared.
  match goal with
  | |- context [runFinalizeCallbacks ?x] => set (s2 := x)
  end.
  destruct (runFinalizeCallbacks_frame s2) as (_ & F2 & _ & F4 & _).
  pose proof (runFinalizeCallbacks_delivered s2) as D.
  assert (D2 : delivered s2 = delivered s).
  { unfold s2, setState. rewrite delivered_emit. simpl. now rewrite app_nil_r. }
  cbn [p_completionState]. cbv zeta. split.
  - transitivity (state (runFinalizeCallbacks s2)); [|exact F2].
    unfold dispatchFinalizeEvents.
    destruct (p_completionState p) as [[| |]|]; try reflexivity.
    destruct (cancelRequest _); reflexivity.
  - assert (C2 : cancelRequest s2 = cancelRequest s) by reflexivity.
    assert (E2 : error (state s2) = or_else (p_error p) (error (state s)))
      by reflexivity.
    clearbody s2.
    unfold dispatchFinalizeEvents.
    destruct (p_completionState p) as [[| |]|].
    + rewrite delivered_emit, D, D2. reflexivity.
    + rewrite delivered_emit, D, D2, F2, E2. reflexivity.
    + rewrite F4, C2. destruct (cancelRequest s);
        rewrite delivered_emit, D, D2; simpl; now rewrite ?app_nil_r.
    + rewrite D, D2. now rewrite app_nil_r.
Qed.

Lemma finalizeWithCancel_outcome s r :
  cancelRequest s = Some r ->
  let s' := finalizeWithCancel s in
  isFinished (state s') = true
  /\ completionState (state s') = Some COMPLETION_CANCEL
  /\ isCanceled (state s') = true
  /\ error (state s')
     = cancelation_error (formatCancelReason (delegate s) (reason r))
  /\ value (state s') = value (state s)
  /\ isSuccessful (state s') = isSuccessful (state s)
  /\ isError (state s') = isError (state s)
  /\ hasStarted (state s') = hasStarted (state s)
  /\ delivered s' = delivered s ++ [EvOnCancel (reason r)].
Proof.
  intros E. unfold finalizeWithCancel. rewrite E. cbv beta iota zeta.
  match goal with
  | |- context [finalizeShared ?p ?x] =>
      destruct (finalizeShared_outcome p x) as (A & B);
      set (s' := finalizeShared p x) in *
  end.
  cbv zeta in A, B. rewrite A, B. cbn [p_completionState].
  destruct (debug (emit _ s) || _); simpl; rewrite ?E;
    rewrite ?delivered_emit; simpl; rewrite ?app_nil_r;
    repeat split; reflexivity.
Qed.

Lemma finalizeWithCancel_frame s :
  cancelRequest s <> None ->
  let s' := finalizeWithCancel s in
  generatorState s' = generatorState s /\ steps s' = steps s.
Proof.
  intros Hc. unfold finalizeWithCancel.
  destruct (cancelRequest s) as [r|] eqn:E; [|congruence].
  cbv beta iota zeta.
  match goal with
  | |- context [finalizeShared ?p ?x] =>
      destruct (finalizeShared_frame p x) as (_ & _ & _ & _ & A & B);
      set (s' := finalizeShared p x) in *
  end.
  cbv zeta in A, B. rewrite A, B.
  destruct (debug (emit _ s) || _); unfold steps; simpl;
    rewrite ?count_app, ?count_one; simpl; split; auto; lia.
Qed.

(** ** The specified properties *)

(** C1. A resumption attempt [proceedChecked(ticket, kind, value)] changes
    the instance only if the instance is not finished and the ticket is
    the current index; an attempt that is not honoured leaves the whole
    instance, its queue and its trace as they were; and in any run, among
    the attempts presenting one and the same ticket, at most one is
    honoured. *)
Theorem proceedChecked_ticket_once (s : engine G) i t v :
  (proceedChecked i t v s <> s ->
   isFinished (state s) = false /\ i = index s)
  /\ (accepts i s = false -> proceedChecked i t v s = s)
  /\ (forall ops, (honored i ops s <= 1)%nat).
Proof.
  split; [|split].
  - intros H. destruct (accepts i s) eqn:A.
    + unfold accepts in A. apply andb_prop in A. destruct A as (A1 & A2).
      apply negb_true_iff in A1. apply Z.eqb_eq in A2. auto.
    + exfalso. apply H. now apply proceedChecked_stale.
  - apply proceedChecked_stale.
  - intros ops. apply honored_at_most_once.
Qed.

(** C3. When [finalize(value, outcome)] finds a cancel request, it does
    what [finalizeWithCancel] does: the instance finishes canceled, with
    the cancelation error, without recording the value or the error the
    body produced, and the Delegate receives [onCancel].  Without a
    cancel request it records success with the value, or error with the
    error, and the Delegate receives [onSuccess] or [onError]. *)
Theorem finalize_cancel_preempts v c (s : engine G) :
  let s' := finalize v c s in
  match cancelRequest s with
  | Some r =>
      s' = finalizeWithCancel s
      /\ isFinished (state s') = true
      /\ completionState (state s') = Some COMPLETION_CANCEL
      /\ isCanceled (state s') = true
      /\ error (state s')
         = cancelation_error (formatCancelReason (delegate s) (reason r))
      /\ value (state s') = value (state s)
      /\ isSuccessful (state s') = isSuccessful (state s)
      /\ isError (state s') = isError (state s)
      /\ delivered s' = delivered s ++ [EvOnCancel (reason r)]
  | None =>
      isFinished (state s') = true
      /\ isCanceled (state s') = isCanceled (state s)
      /\ completionState (state s') = Some c
      /\ match c with
         | COMPLETION_SUCCESS =>
             isSuccessful (state s') = true
             /\ value (state s') = v
             /\ error (state s') = error (state s)
             /\ delivered s' = delivered s ++ [EvOnSuccess]
         | COMPLETION_ERROR =>
             isError (state s') = true
             /\ error (state s') = v
             /\ value (state s') = value (state s)
             /\ delivered s' = delivered s ++ [EvOnError v]
         | COMPLETION_CANCEL =>
             error (state s') = v /\ delivered s' = delivered s
         end
  end.
Proof.
  unfold finalize. destruct (cancelRequest s) as [r|] eqn:E.
  - destruct (finalizeWithCancel_outcome s E)
      as (A1 & A2 & A3 & A4 & A5 & A6 & A7 & _ & A9).
    cbv zeta. repeat split; assumption.
  - cbv zeta.
    match goal with
    | |- context [finalizeShared ?p s] =>
        destruct (finalizeShared_outcome p s) as (A & B);
        set (s' := finalizeShared p s) in *
    end.
    cbv zeta in A, B. rewrite A, B.
    destruct c; simpl; rewrite ?E, ?app_nil_r; repeat split; reflexivity.
Qed.

(** C4. The index of a new instance is 1 and no operation lowers it:
    [advanceIndex] keeps or raises it, [proceedAsync] and [finalizeShared]
    raise it, and every operation on an instance, hence every run, leaves
    it at least as large as it was. *)
Theorem index_never_decreases fn (g : G) d e dbg pt :
  index (new_TaskInstanceState fn g d e dbg pt) = 1
  /\ (forall i (s : engine G), index s <= index (snd (advanceIndex i s)))
  /\ (forall t v (s : engine G), index s < index (proceedAsync t v s))
  /\ (forall p (s : engine G), index s < index (finalizeShared p s))
  /\ (forall o (s : engine G), index s <= index (apply_op o s))
  /\ (forall ops (s : engine G), index s <= index (run ops s)).
Proof.
  split; [reflexivity|]. repeat split; intros.
  - apply advanceIndex_evolves.
  - rewrite proceedAsync_index. lia.
  - destruct (finalizeShared_frame p s) as (H & _). rewrite H. lia.
  - apply apply_op_evolves.
  - apply run_evolves.
Qed.

(** C5. [cancel(reason)] on an instance that has not started, whose
    request is accepted (no earlier request, not finished), finishes the
    instance at once with the cancel outcome, delivers [onCancel(reason)],
    and the body is not stepped, neither by the call nor by anything
    done with the instance afterwards. *)
Theorem cancel_before_start r (s : engine G) :
  hasStarted (state s) = false ->
  cancelRequest s = None ->
  isFinished (state s) = false ->
  let s' := cancel r s in
  isFinished (state s') = true
  /\ completionState (state s') = Some COMPLETION_CANCEL
  /\ isCanceled (state s') = true
  /\ delivered s' = delivered s ++ [EvOnCancel r]
  /\ forall ops,
       steps (run ops s') = steps s
       /\ generatorState (run ops s') = generatorState s.
Proof.
  intros H C F. unfold cancel, requestCancel. rewrite C, F.
  cbn [negb state set_cancelRequest]. rewrite H.
  set (s1 := set_cancelRequest _ s).
  assert (E : cancelRequest s1
              = Some {| kind := CANCEL_KIND_EXPLICIT; reason := r |})
    by reflexivity.
  destruct (finalizeWithCancel_outcome s1 E)
    as (A1 & A2 & A3 & _ & _ & _ & _ & _ & A9).
  assert (N : cancelRequest s1 <> None) by congruence.
  destruct (finalizeWithCancel_frame s1 N) as (B5 & B6).
  cbv zeta. repeat split; try assumption.
  - destruct (finished_run_quiescent ops (finalizeWithCancel s1) A1)
      as (_ & Q & _). rewrite Q, B6. reflexivity.
  - destruct (finished_run_quiescent ops (finalizeWithCancel s1) A1)
      as (_ & _ & Q). rewrite Q, B5. reflexivity.
Qed.

(** C6. A yielded [RawValue] is unwrapped and the body is resumed with
    [YIELDABLE_CONTINUE] and the wrapped value through [proceedAsync];
    whatever else the wrapper exposes, no handler is called and no
    [then] is subscribed (the trace is unchanged), and no disposer is
    captured. *)
Theorem raw_value_resumes_unwrapped sr inner (s : engine G) :
  get_raw (sr_value sr) = Some inner ->
  let s' := handleYieldedValue sr s in
  s' = proceedAsync YIELDABLE_CONTINUE inner s
  /\ trace s' = trace s
  /\ disposers s' = disposers s
  /\ state s' = state s
  /\ index s' = index s + 1
  /\ env_queue s' = env_queue s ++ [ThProceedSync YIELDABLE_CONTINUE inner].
Proof.
  intros R. unfold handleYieldedValue, proceedWithSimpleValue.
  destruct (sr_value sr); try discriminate. simpl in R. simpl. rewrite R.
  destruct (proceedAsync_frame YIELDABLE_CONTINUE inner s)
    as (A & _ & C & D & _ & Q).
  cbv zeta. rewrite proceedAsync_index. repeat split; assumption.
Qed.

(** C7, as the code has it.  A yielded value that is not a [RawValue]
    and carries a function under [__ec_cancel__] has that function
    pushed on the disposers, whichever of the yieldable, thenable and
    plain-value branches is taken. *)
Theorem disposer_captured_unless_raw sr f (s : engine G) :
  get_raw (sr_value sr) = None ->
  get_ec_cancel (sr_value sr) = VFun f ->
  exists rest,
    disposers (handleYieldedValue sr s) = disposers s ++ VFun f :: rest.
Proof.
  intros R C. unfold handleYieldedValue, proceedWithSimpleValue.
  destruct (sr_value sr) as [| | | | | | |o] eqn:V; try discriminate.
  simpl in R, C. simpl. rewrite R, C. simpl.
  set (s1 := set_disposers (disposers s ++ [VFun f]) s).
  assert (D1 : disposers s1 = disposers s ++ [VFun f]) by reflexivity.
  destruct (o_yieldable o) as [h|] eqn:Y.
  - unfold invokeYieldable. simpl. rewrite Y.
    match goal with
    | |- context [resume_each ?i ?l ?x] =>
        destruct (resume_each_frame i l x) as (_ & _ & D & _);
        set (s3 := resume_each i l x) in *
    end.
    simpl in D.
    destruct (h_result h) as [d|x].
    + destruct d;
        try (exists []; simpl; rewrite D; reflexivity).
      exists [VFun f0]. simpl. rewrite D, <- app_assoc. reflexivity.
    + exists []. simpl. rewrite D. reflexivity.
  - destruct (o_then o) as [th|].
    + unfold handleYieldedUnknownThenable.
      match goal with
      | |- context [resume_each ?i ?l ?x] =>
          destruct (resume_each_frame i l x) as (_ & _ & D & _)
      end.
      exists []. rewrite D. reflexivity.
    + destruct (proceedAsync_frame YIELDABLE_CONTINUE (VObj o) s1)
        as (_ & _ & D & _).
      exists []. rewrite D. reflexivity.
Qed.


(** C9. When the handler of a yielded yieldable throws, the exception is
    passed to [env.reportUncaughtRejection] and nothing else happens on
    its account: the published state and the generator are untouched
    (no outcome, no step), the only disposer captured is the one attached
    to the value, and if the handler did not resume the instance before
    throwing, the instance differs from the one before the yield only by
    that disposer and by the three calls in the trace. *)
Theorem yieldable_failure_reported sr h e (s : engine G) :
  get_raw (sr_value sr) = None ->
  get_yieldable (sr_value sr) = Some h ->
  h_result h = HThrow e ->
  let s' := handleYieldedValue sr s in
  let s0 := addDisposer (get_ec_cancel (sr_value sr)) s in
  let calls := [EvGetYieldContext;
                EvYieldable (h_id h) (getYieldContext (delegate s)) (index s);
                EvReportUncaught YieldableFailure e] in
  trace s' = trace s ++ calls
  /\ state s' = state s
  /\ generatorState s' = generatorState s
  /\ disposers s' = disposers s0
  /\ (h_sync h = [] -> s' = emit_all calls s0).
Proof.
  intros R Y T. unfold handleYieldedValue.
  destruct (sr_value sr) as [| | | | | | |o] eqn:V; try discriminate.
  simpl in R, Y. simpl. rewrite R, Y.
  set (s0 := addDisposer (o_ec_cancel o) s).
  assert (F0 : trace s0 = trace s /\ state s0 = state s
               /\ generatorState s0 = generatorState s
               /\ index s0 = index s /\ delegate s0 = delegate s).
  { unfold s0, addDisposer. destruct (o_ec_cancel o); repeat split. }
  destruct F0 as (T0 & S0 & G0 & I0 & D0).
  unfold invokeYieldable. simpl get_yieldable. rewrite Y, T.
  match goal with
  | |- context [resume_each ?i ?l ?x] =>
      destruct (resume_each_frame i l x) as (A & B & C & D);
      set (s3 := resume_each i l x) in *
  end.
  simpl in A, B, C, D.
  repeat split.
  - simpl. rewrite D, T0, D0, I0, <- !app_assoc. reflexivity.
  - simpl. congruence.
  - simpl. congruence.
  - simpl. exact C.
  - intros N. unfold s3. rewrite N. unfold resume_each, emit_all, emit.
    simpl. rewrite D0, I0, <- !app_assoc. reflexivity.
Qed.

(** C10. Once [onYielded] has been called on an instance, whatever is
    done with it afterwards, [asyncErrorsHandled] stays set and
    [env.reportUncaughtRejection] is never called for the instance's own
    error. *)
Theorem yielded_child_never_reported parent i (s : engine G) ops :
  let s' := run ops (snd (onYielded parent i s)) in
  asyncErrorsHandled s' = true
  /\ unhandled_reports s' = unhandled_reports s.
Proof.
  unfold onYielded. cbn [snd].
  set (s1 := set_asyncErrorsHandled true s).
  destruct (onFinalize_evolves (CbResumeParent parent i) s1) as (_ & _ & A).
  destruct (A eq_refl) as (A1 & A2).
  destruct (run_evolves ops (onFinalize (CbResumeParent parent i) s1))
    as (_ & _ & B).
  destruct (B A1) as (B1 & B2).
  cbv zeta. split; [exact B1|]. rewrite B2, A2. reflexivity.
Qed.


(** ** The outcome pass *)

Lemma same_result_refl st : same_result st st.
Proof. repeat split. Qed.

Lemma persists_refl s : persists s s.
Proof. repeat split; auto. Qed.

Lemma persists_trans s1 s2 s3 :
  persists s1 s2 -> persists s2 s3 -> persists s1 s3.
Proof.
  intros (A & B & C) (A' & B' & C'). repeat split; auto; congruence.
Qed.

Lemma advances_refl s : advances s s.
Proof.
  left. split; [apply same_result_refl|]. split; [reflexivity|].
  split; [apply persists_refl|auto].
Qed.

Lemma advances_trans s1 s2 s3 :
  advances s1 s2 -> advances s2 s3 -> advances s1 s3.
Proof.
  intros [(R & D & P & C)|(F1 & F2 & P & O)]
         [(R' & D' & P' & C')|(F1' & F2' & P' & O')].
  - left. destruct R as (R1 & R2 & R3 & R4 & R5 & R6 & R7 & R8).
    destruct R' as (R1' & R2' & R3' & R4' & R5' & R6' & R7' & R8').
    split; [repeat split; congruence|]. split; [congruence|].
    split; [eapply persists_trans; eauto|].
    intros F. rewrite C', C; auto. congruence.
  - right. destruct R as (R1 & R2 & R3 & R4 & R5 & R6 & R7 & R8).
    split; [congruence|]. split; [exact F2'|].
    split; [eapply persists_trans; eauto|].
    rewrite D, R3, R4, R5, R6, R7 in O'. exact O'.
  - right. destruct R' as (R1 & R2 & R3 & R4 & R5 & R6 & R7 & R8).
    split; [exact F1|]. split; [congruence|].
    split; [eapply persists_trans; eauto|].
    destruct P' as (P1 & _).
    rewrite (C' F2), D', R2, R3, R4, R5, R6, R7, P1. exact O.
  - congruence.
Qed.

Lemma advances_quiet s s' d :
  trace s' = trace s ++ d ->
  count is_terminal d = O ->
  state s' = state s ->
  delegate s' = delegate s ->
  (forall r, cancelRequest s = Some r -> cancelRequest s' = Some r) ->
  (isFinished (state s) = true -> cancelRequest s' = cancelRequest s) ->
  advances s s'.
Proof.
  intros T D S Dg C1 C2. left.
  split; [rewrite S; apply same_result_refl|].
  split; [unfold delivered; rewrite T, filter_app, (filter_none _ _ D);
          apply app_nil_r|].
  split; [|exact C2].
  split; [exact Dg|]. split; [now rewrite S|exact C1].
Qed.

Ltac still_with delta :=
  apply advances_quiet with (d := delta);
  [ simpl; rewrite ?app_nil_r; reflexivity
  | try reflexivity
  | reflexivity
  | reflexivity
  | simpl; auto
  | simpl; auto ].

Lemma advanceIndex_advances i s : advances s (snd (advanceIndex i s)).
Proof.
  unfold advanceIndex. destruct (index s =? i); simpl.
  - still_with (@nil event).
  - apply advances_refl.
Qed.

Lemma proceedAsync_advances t v s : advances s (proceedAsync t v s).
Proof.
  unfold proceedAsync, advanceIndex. rewrite Z.eqb_refl. simpl.
  still_with (@nil event).
Qed.

Lemma requestCancel_advances r s : advances s (snd (requestCancel r s)).
Proof.
  unfold requestCancel.
  destruct (cancelRequest s) eqn:C; [apply advances_refl|].
  destruct (isFinished (state s)) eqn:F; [apply advances_refl|]. simpl.
  apply advances_quiet with (d := @nil event); simpl;
    rewrite ?app_nil_r; auto; congruence.
Qed.

Lemma proceedChecked_advances i t v s : advances s (proceedChecked i t v s).
Proof.
  unfold proceedChecked. destruct (isFinished (state s)); [apply advances_refl|].
  pose proof (advanceIndex_advances i s) as H.
  destruct (advanceIndex i s) as [r s1]. simpl in H.
  destruct (advanced r); simpl; [|exact H].
  eapply advances_trans; [exact H|].
  destruct t; try apply proceedAsync_advances.
  eapply advances_trans; [apply requestCancel_advances|apply proceedAsync_advances].
Qed.

Lemma resume_each_advances i l s : advances s (resume_each i l s).
Proof.
  unfold resume_each. revert s.
  induction l as [|a l IH]; intros s; simpl; [apply advances_refl|].
  eapply advances_trans; [apply proceedChecked_advances|apply IH].
Qed.

Lemma emit_advances e s : is_terminal e = false -> advances s (emit e s).
Proof.
  intros A. still_with [e]. now rewrite count_one, A.
Qed.

Lemma addDisposer_advances d s : advances s (addDisposer d s).
Proof.
  unfold addDisposer. destruct d; try apply advances_refl.
  still_with (@nil event).
Qed.

Lemma dispose_advances r s : advances s (dispose r s).
Proof.
  unfold dispose. destruct (disposers s) as [|d ds] eqn:E; [apply advances_refl|].
  apply advances_quiet with (d := map (fun d => EvDisposer d r) (d :: ds));
    simpl; auto. apply (silent_disposers r (d :: ds)).
Qed.

Lemma maybeResolveDefer_advances s : advances s (maybeResolveDefer s).
Proof.
  unfold maybeResolveDefer.
  destruct (negb (defer s) || negb (isFinished (state s))); [apply advances_refl|].
  destruct (completionState (state s)) as [[| |]|]; apply emit_advances; reflexivity.
Qed.

Lemma maybeThrowUnhandledTaskErrorLater_advances s :
  advances s (maybeThrowUnhandledTaskErrorLater s).
Proof.
  unfold maybeThrowUnhandledTaskErrorLater.
  match goal with |- context [if ?b then _ else _] => destruct b end;
    [|apply advances_refl].
  still_with (@nil event).
Qed.

Lemma runFinalizeCallbacks_advances s : advances s (runFinalizeCallbacks s).
Proof.
  unfold runFinalizeCallbacks.
  eapply advances_trans; [|apply maybeThrowUnhandledTaskErrorLater_advances].
  eapply advances_trans; [|apply maybeResolveDefer_advances].
  apply advances_quiet with
    (d := flat_map (run_callback (state s)) (finalizeCallbacks s));
    simpl; auto.
  apply count_callbacks; reflexivity.
Qed.

Lemma finalizeShared_delegate p s :
  delegate (finalizeShared p s) = delegate s
  /\ hasStarted (state (finalizeShared p s))
     = or_else (p_hasStarted p) (hasStarted (state s)).
Proof.
  destruct (finalizeShared_outcome p s) as (A & _). cbv zeta in A.
  rewrite A. split; [|reflexivity].
  unfold finalizeShared, dispatchFinalizeEvents, runFinalizeCallbacks,
    maybeThrowUnhandledTaskErrorLater, maybeResolveDefer, setState; simpl.
  break; reflexivity.
Qed.

Lemma finalizeWithCancel_advances s :
  isFinished (state s) = false -> cancelRequest s <> None ->
  advances s (finalizeWithCancel s).
Proof.
  intros F N. destruct (cancelRequest s) as [r|] eqn:E; [|congruence].
  destruct (finalizeWithCancel_outcome s E)
    as (A1 & A2 & A3 & A4 & A5 & A6 & A7 & A8 & A9).
  assert (K : cancelRequest (finalizeWithCancel s) = Some r
              /\ delegate (finalizeWithCancel s) = delegate s).
  { unfold finalizeWithCancel. rewrite E. cbv beta iota zeta.
    match goal with
    | |- context [finalizeShared ?p ?x] =>
        destruct (finalizeShared_frame p x) as (_ & _ & _ & C & _);
        destruct (finalizeShared_delegate p x) as (Dg & _)
    end.
    cbv zeta in C. rewrite C, Dg.
    destruct (debug (emit _ s) || _); simpl; auto. }
  destruct K as (K1 & K2).
  right. split; [exact F|]. split; [exact A1|]. split.
  - split; [exact K2|]. split; [congruence|]. intros r' Hr. congruence.
  - rewrite K1, K2. repeat split; assumption.
Qed.

Lemma finalize_advances v c s :
  isFinished (state s) = false -> c <> COMPLETION_CANCEL ->
  advances s (finalize v c s).
Proof.
  intros F Hc. unfold finalize.
  destruct (cancelRequest s) as [r|] eqn:E.
  - apply finalizeWithCancel_advances; congruence.
  - cbv zeta.
    match goal with
    | |- context [finalizeShared ?p s] =>
        destruct (finalizeShared_frame p s) as (_ & _ & _ & C & _);
        destruct (finalizeShared_delegate p s) as (Dg & Hs);
        destruct (finalizeShared_outcome p s) as (S1 & S2);
        set (s' := finalizeShared p s) in *
    end.
    cbv zeta in C, S1, S2.
    right. split; [exact F|]. split; [rewrite S1; reflexivity|]. split.
    + split; [exact Dg|]. split; [|intros r' Hr; congruence].
      rewrite Hs. destruct c; auto.
    + rewrite C, E, S2, S1.
      destruct c; [| |congruence]; cbn; (split; [reflexivity|]);
        [left|right]; repeat split.
Qed.

Lemma cancel_advances r s : advances s (cancel r s).
Proof.
  unfold cancel, requestCancel.
  destruct (cancelRequest s) as [q|] eqn:E; cbn [negb fst snd]; [apply advances_refl|].
  destruct (isFinished (state s)) eqn:F; cbn [negb]; [apply advances_refl|].
  eapply advances_trans.
  - apply advances_quiet with (d := @nil event)
      (s' := set_cancelRequest (Some {| kind := CANCEL_KIND_EXPLICIT; reason := r |}) s);
      simpl; rewrite ?app_nil_r; auto; congruence.
  - cbn [state set_cancelRequest]. destruct (hasStarted (state s)).
    + apply proceedAsync_advances.
    + apply finalizeWithCancel_advances; cbn; congruence.
Qed.

Lemma fold_cancel_advances l s :
  advances s (fold_left (fun acc why => cancel why acc) l s).
Proof.
  revert s. induction l as [|r l IH]; intros s; simpl; [apply advances_refl|].
  eapply advances_trans; [apply cancel_advances|apply IH].
Qed.

Lemma generatorStep_advances v m s : advances s (snd (generatorStep v m s)).
Proof.
  unfold generatorStep.
  match goal with
  | |- context [fold_left ?f ?l ?x] =>
      pose proof (fold_cancel_advances l x) as H; set (s2 := fold_left f l x) in *
  end.
  assert (H1 : advances s s2).
  { eapply advances_trans; [|exact H]. apply emit_advances; reflexivity. }
  clear H.
  destruct (GeneratorState_step (generatorState s2) _) as [sr gs].
  cbn [snd].
  eapply advances_trans; [exact H1|].
  match goal with
  | |- advances _ (if _ then ?a else ?b) =>
      assert (H2 : advances s2 b) by (still_with (@nil event))
  end.
  destruct (expectsLinkedYield _); [|exact H2].
  eapply advances_trans; [exact H2|].
  match goal with
  | |- advances _ (set_expectsLinkedYield false ?x) =>
      apply advances_trans with x; [|still_with (@nil event)]
  end.
  destruct (_ || _); [apply emit_advances; reflexivity|apply advances_refl].
Qed.

Lemma invokeYieldable_advances y s : advances s (invokeYieldable y s).
Proof.
  unfold invokeYieldable.
  destruct (get_yieldable y) as [h|].
  - match goal with
    | |- context [resume_each ?i ?l ?x] =>
        pose proof (resume_each_advances i l x) as H;
        set (s3 := resume_each i l x) in *
    end.
    assert (H1 : advances s s3).
    { eapply advances_trans; [|exact H].
      eapply advances_trans; apply emit_advances; reflexivity. }
    eapply advances_trans; [exact H1|].
    destruct (h_result h).
    + apply addDisposer_advances.
    + apply emit_advances; reflexivity.
  - eapply advances_trans; apply emit_advances; reflexivity.
Qed.

Lemma handleYieldedUnknownThenable_advances th s :
  advances s (handleYieldedUnknownThenable th s).
Proof.
  unfold handleYieldedUnknownThenable.
  eapply advances_trans; [|apply resume_each_advances].
  apply emit_advances; reflexivity.
Qed.

Lemma handleYieldedValue_advances sr s : advances s (handleYieldedValue sr s).
Proof.
  unfold handleYieldedValue, proceedWithSimpleValue.
  destruct (negb (truthy (sr_value sr))); [apply proceedAsync_advances|].
  destruct (get_raw (sr_value sr)); [apply proceedAsync_advances|].
  eapply advances_trans; [apply addDisposer_advances|].
  destruct (get_yieldable (sr_value sr)); [apply invokeYieldable_advances|].
  destruct (get_then (sr_value sr));
    [apply handleYieldedUnknownThenable_advances|apply proceedAsync_advances].
Qed.

Lemma handleResolvedContinueValue_advances m v s :
  isFinished (state s) = false ->
  advances s (handleResolvedContinueValue m v s).
Proof.
  intros Hf. unfold handleResolvedContinueValue.
  pose proof (generatorStep_advances v m s) as H.
  pose proof (generatorStep_evolves v m s) as He.
  destruct (generatorStep v m s) as [sr s1]. cbn [snd] in H, He.
  unfold advanceIndex.
  destruct (index s1 =? index s) eqn:E; cbn [advanced negb]; [|exact H].
  apply Z.eqb_eq in E.
  destruct (negb (index s1 + 1 =? 0)); cbn [negb].
  - eapply advances_trans; [exact H|].
    pose proof (evolves_same_index He E) as F.
    match goal with
    | |- advances _ (if _ then ?f ?x else _) =>
        assert (H2 : advances s1 x) by (still_with (@nil event))
    end.
    eapply advances_trans; [exact H2|].
    destruct (sr_errored sr).
    + apply finalize_advances; [cbn; congruence|discriminate].
    + apply handleYieldedValue_advances.
  - eapply advances_trans; [exact H|]. still_with (@nil event).
Qed.

Lemma handleResolvedReturnedValue_advances t v s :
  isFinished (state s) = false ->
  advances s (handleResolvedReturnedValue t v s).
Proof.
  intros Hf. destruct t; cbn [handleResolvedReturnedValue];
    try (apply finalize_advances; [exact Hf|discriminate]).
  apply advances_refl.
Qed.

Lemma proceedSync_advances t v s : advances s (proceedSync t v s).
Proof.
  unfold proceedSync.
  destruct (isFinished (state s)) eqn:F; [apply advances_refl|].
  eapply advances_trans; [apply (dispose_advances VUndefined)|].
  destruct (done _).
  - apply handleResolvedReturnedValue_advances. now rewrite dispose_isFinished.
  - apply handleResolvedContinueValue_advances. now rewrite dispose_isFinished.
Qed.

Lemma start_advances s : advances s (start s).
Proof.
  unfold start. destruct (_ || _); [apply advances_refl|].
  eapply advances_trans; [|apply emit_advances; reflexivity].
  eapply advances_trans; [|apply proceedSync_advances].
  left. unfold setState. simpl.
  split; [repeat split|]. split.
  - unfold delivered; simpl. rewrite filter_app. simpl. apply app_nil_r.
  - split; [repeat split; auto|auto].
Qed.

Lemma onFinalize_advances cb s : advances s (onFinalize cb s).
Proof.
  unfold onFinalize. cbn [state set_finalizeCallbacks].
  assert (H : advances s (set_finalizeCallbacks (finalizeCallbacks s ++ [cb]) s))
    by (still_with (@nil event)).
  destruct (isFinished (state s)); [|exact H].
  eapply advances_trans; [exact H|apply runFinalizeCallbacks_advances].
Qed.

Lemma promise_advances s : advances s (promise s).
Proof.
  unfold promise. destruct (negb (defer s)); [|apply advances_refl].
  eapply advances_trans; [|apply maybeResolveDefer_advances].
  still_with [EvDefer].
Qed.

Lemma onYielded_advances parent i s : advances s (snd (onYielded parent i s)).
Proof.
  unfold onYielded. cbn [snd].
  eapply advances_trans; [|apply onFinalize_advances].
  still_with (@nil event).
Qed.

Lemma run_thunk_advances th s : advances s (run_thunk th s).
Proof.
  destruct th; cbn [run_thunk]; [apply proceedSync_advances|].
  destruct (negb _); [|apply advances_refl].
  apply emit_advances; reflexivity.
Qed.

Lemma turn_advances n s : advances s (turn n s).
Proof.
  unfold turn. destruct (nth_error (env_queue s) n); [|apply advances_refl].
  eapply advances_trans; [|apply run_thunk_advances].
  still_with (@nil event).
Qed.

Lemma apply_op_advances o s : advances s (apply_op o s).
Proof.
  destruct o; cbn [apply_op];
    auto using start_advances, cancel_advances, proceedChecked_advances,
      proceedSync_advances, onFinalize_advances, promise_advances,
      onYielded_advances, turn_advances.
Qed.

Lemma run_advances ops s : advances s (run ops s).
Proof.
  unfold run. revert s.
  induction ops as [|o ops IH]; intros s; simpl; [apply advances_refl|].
  eapply advances_trans; [apply apply_op_advances|apply IH].
Qed.

Lemma advances_persists s s' : advances s s' -> persists s s'.
Proof. intros [(_ & _ & P & _)|(_ & _ & P & _)]; exact P. Qed.

Lemma advances_coherent s s' : advances s s' -> coherent s -> coherent s'.
Proof.
  unfold coherent.
  intros [((R1 & R2 & R3 & R4 & R5 & R6 & R7 & R8) & D & P & C)
         |(F1 & F2 & (Dg & _) & O)] H.
  - rewrite R1, R2, R3, R4, R5, R7, D.
    destruct (isFinished (state s)) eqn:F; [|exact H].
    rewrite (C eq_refl). exact H.
  - rewrite F1 in H. rewrite F2. destruct H as (H1 & H2 & H3 & H4 & H5).
    destruct (cancelRequest s') as [r|].
    + destruct O as (O1 & O2 & O3 & O4 & O5 & O6 & O7).
      rewrite O6, O7, H5. repeat split; congruence.
    + destruct O as (O1 & [(A1 & A2 & A3 & A4 & A5)|(A1 & A2 & A3 & A4 & A5)]).
      * split; [congruence|]. left. rewrite A5, H5. repeat split; congruence.
      * split; [congruence|]. right. rewrite A5, H5. repeat split; congruence.
Qed.

(** ** Runs driven through the interface *)

Lemma issued_app i (l1 l2 : list event) :
  issued i (l1 ++ l2) = issued i l1 || issued i l2.
Proof. apply existsb_app. Qed.

Lemma start_sets_guard s : start_guard (start s) = true.
Proof.
  unfold start_guard, start.
  destruct (hasStarted (state s) || is_some (cancelRequest s)) eqn:E;
    [exact E|].
  match goal with
  | |- context [proceedSync ?t ?v ?x] =>
      destruct (advances_persists (proceedSync_advances t v x)) as (_ & P & _)
  end.
  simpl. rewrite P; reflexivity.
Qed.

Lemma start_guard_persists s s' :
  advances s s' -> start_guard s = true -> start_guard s' = true.
Proof.
  unfold start_guard. intros A H.
  destruct (advances_persists A) as (_ & P1 & P2).
  apply orb_true_iff in H. apply orb_true_iff. destruct H as [H|H].
  - left. auto.
  - right. destruct (cancelRequest s) as [r|]; [|discriminate].
    rewrite (P2 r eq_refl). reflexivity.
Qed.

Lemma cancel_sets_guard r s :
  cancelRequest s = None -> isFinished (state s) = false ->
  start_guard (cancel r s) = true.
Proof.
  intros C F. unfold start_guard, cancel, requestCancel. rewrite C, F.
  cbn [negb]. apply orb_true_iff. right. unfold proceedWithCancelAsync.
  set (s1 := set_cancelRequest
               (Some {| kind := CANCEL_KIND_EXPLICIT; reason := r |}) s).
  assert (H : advances s1
                (if hasStarted (state s1)
                 then proceedAsync YIELDABLE_RETURN VSentinel s1
                 else finalizeWithCancel s1))
    by (destruct (hasStarted (state s1));
        [apply proceedAsync_advances
        |apply finalizeWithCancel_advances; [exact F|discriminate]]).
  destruct (advances_persists H) as (_ & _ & P).
  rewrite (P _ eq_refl). reflexivity.
Qed.

Lemma untouched_step o s :
  untouched s -> well_driven [o] s = true ->
  untouched (apply_op o s) \/ start_guard (apply_op o s) = true.
Proof.
  intros (U1 & U2 & U3 & U4 & U5) W. cbn [well_driven] in W.
  destruct o; cbn [apply_op].
  - right. apply start_sets_guard.
  - right. now apply cancel_sets_guard.
  - rewrite U4 in W. discriminate.
  - discriminate.
  - left. unfold onFinalize. cbn [state set_finalizeCallbacks]. rewrite U3.
    repeat split; assumption.
  - left. unfold promise, maybeResolveDefer.
    destruct (negb (defer s)); [|repeat split; assumption].
    cbn [state emit set_defer set_asyncErrorsHandled set_trace defer].
    rewrite U3. cbn [negb orb].
    rewrite ?orb_true_r.
    repeat split; try assumption.
    intros i.
    change (issued i (trace s ++ [EvDefer]) = false).
    rewrite issued_app, U4. reflexivity.
  - left. unfold onYielded, onFinalize. cbn [snd state set_finalizeCallbacks
      set_asyncErrorsHandled]. rewrite U3.
    repeat split; assumption.
  - left. unfold turn. rewrite U5. destruct n; cbn [nth_error];
      repeat split; assumption.
Qed.

Lemma well_driven_guard ops s :
  untouched s \/ start_guard s = true ->
  well_driven ops s = true ->
  untouched (run ops s) \/ start_guard (run ops s) = true.
Proof.
  unfold run. revert s.
  induction ops as [|o ops IH]; intros s H W; [exact H|].
  cbn [fold_left]. cbn [well_driven] in W.
  apply andb_true_iff in W. destruct W as (W1 & W2).
  apply IH; [|exact W2].
  destruct H as [H|H].
  - apply untouched_step; [exact H|].
    cbn [well_driven]. now rewrite W1.
  - right. eapply start_guard_persists; [apply apply_op_advances|exact H].
Qed.

(** C2. In every run from construction [isFinished] is set at most once:
    the number of terminal events delivered to the Delegate and the number
    of [setState] calls publishing [isFinished] are both 1 if the instance
    is finished and 0 otherwise, and on a finished instance [cancel],
    [proceedChecked] and [proceedSync] change nothing; so does [start],
    in every run that drives the instance through its interface
    ([proceedChecked] only with tickets the instance has handed out,
    [proceedSync] not called from outside). *)
Theorem finalized_once ops fn (g : G) d e dbg pt :
  let s := run ops (new_TaskInstanceState fn g d e dbg pt) in
  terminals s = b2n (isFinished (state s))
  /\ finalizations s = b2n (isFinished (state s))
  /\ (isFinished (state s) = true ->
      (forall r, cancel r s = s)
      /\ (forall i t v, proceedChecked i t v s = s)
      /\ (forall t v, proceedSync t v s = s)
      /\ (well_driven ops (new_TaskInstanceState fn g d e dbg pt) = true ->
          start s = s)).
Proof.
  intros s. destruct (run_settled ops fn g d e dbg pt) as (A & B & _).
  split; [exact A|]. split; [exact B|]. intros F.
  repeat split; intros.
  - now apply cancel_finished.
  - now apply proceedChecked_finished.
  - now apply proceedSync_finished.
  - apply start_guarded.
    destruct (@well_driven_guard ops (new_TaskInstanceState fn g d e dbg pt))
      as [(_ & _ & U & _)|K]; [left; repeat split|assumption| |exact K].
    fold s in U. congruence.
Qed.

(** ** Further properties of the engine *)

(** X1. [requestCancel] accepts a request exactly when there is none yet
    and the instance is not finished; it then stores that request and
    changes nothing else, and otherwise changes nothing at all.  A stored
    request is never replaced or removed: after an accepted
    [requestCancel(q)], after a [cancel(r)] on an unfinished instance
    without a request, and from any instance that carries a request,
    every run ends with that same request, and a [cancel] on an
    instance that carries a request changes nothing. *)
Theorem cancel_request_set_once q r (s : engine G) ops :
  (fst (requestCancel q s) = true <->
   cancelRequest s = None /\ isFinished (state s) = false)
  /\ snd (requestCancel q s)
     = (if fst (requestCancel q s) then set_cancelRequest (Some q) s else s)
  /\ (fst (requestCancel q s) = true ->
      cancelRequest (run ops (snd (requestCancel q s))) = Some q)
  /\ (cancelRequest s = None -> isFinished (state s) = false ->
      cancelRequest (run ops (cancel r s))
      = Some {| kind := CANCEL_KIND_EXPLICIT; reason := r |})
  /\ (forall r0, cancelRequest s = Some r0 ->
                 cancel r s = s /\ cancelRequest (run ops s) = Some r0).
Proof.
  assert (P : forall (x : engine G) r0, cancelRequest x = Some r0 ->
                           cancelRequest (run ops x) = Some r0).
  { intros x r0 H.
    destruct (advances_persists (run_advances ops x)) as (_ & _ & P). auto. }
  split; [|split; [|split; [|split]]].
  - unfold requestCancel.
    destruct (cancelRequest s); [split; [discriminate|intros (H & _); discriminate]|].
    destruct (isFinished (state s)); simpl; split; auto; try discriminate.
    intros (_ & H); discriminate.
  - unfold requestCancel. destruct (cancelRequest s); [reflexivity|].
    destruct (isFinished (state s)); reflexivity.
  - unfold requestCancel. destruct (cancelRequest s); [discriminate|].
    destruct (isFinished (state s)); [discriminate|].
    intros _. apply P. reflexivity.
  - intros C F. apply P.
    unfold cancel, requestCancel, proceedWithCancelAsync. rewrite C, F.
    cbn [negb].
    set (s1 := set_cancelRequest
                 (Some {| kind := CANCEL_KIND_EXPLICIT; reason := r |}) s).
    destruct (hasStarted (state s1)).
    + destruct (proceedAsync_frame YIELDABLE_RETURN VSentinel s1)
        as (_ & _ & _ & _ & K & _). exact K.
    + assert (A : advances s1 (finalizeWithCancel s1))
        by (apply finalizeWithCancel_advances; [exact F|discriminate]).
      destruct (advances_persists A) as (_ & _ & K).
      apply K. reflexivity.
  - intros r0 C. split; [|now apply P].
    unfold cancel, requestCancel. rewrite C. reflexivity.
Qed.

(** X2. [start()] takes effect at most once: after a first call, any later
    call, whatever happened in between, returns without stepping the
    body, publishing state or calling the Delegate. *)
Theorem start_only_once (s : engine G) ops :
  start (run ops (start s)) = run ops (start s).
Proof.
  assert (H : (hasStarted (state (start s)) || is_some (cancelRequest (start s)))
              = true).
  { unfold start at 1 2.
    destruct (hasStarted (state s) || is_some (cancelRequest s)) eqn:E;
      [exact E|].
    match goal with
    | |- context [proceedSync ?t ?v ?x] =>
        destruct (advances_persists (proceedSync_advances t v x)) as (_ & P & _)
    end.
    simpl. rewrite P; reflexivity. }
  apply start_guarded.
  destruct (advances_persists (run_advances ops (start s))) as (_ & P1 & P2).
  apply orb_true_iff in H. apply orb_true_iff. destruct H as [H|H].
  - left. auto.
  - right. destruct (cancelRequest (start s)) as [r|]; [|discriminate].
    rewrite (P2 r eq_refl). reflexivity.
Qed.

(** X3. Cancellation wins every race with completion: if a cancel request
    is pending on an unfinished instance, then whenever the instance is
    found finished later, it finished canceled, the Delegate received
    [onCancel] with the reason of that request and no other terminal
    event, and the value published is the one from before. *)
Theorem pending_cancel_wins r (s : engine G) ops :
  cancelRequest s = Some r ->
  isFinished (state s) = false ->
  isFinished (state (run ops s)) = true ->
  completionState (state (run ops s)) = Some COMPLETION_CANCEL
  /\ isCanceled (state (run ops s)) = true
  /\ didCancel (error (state (run ops s))) = true
  /\ value (state (run ops s)) = value (state s)
  /\ delivered (run ops s) = delivered s ++ [EvOnCancel (reason r)].
Proof.
  intros C F F'.
  destruct (run_advances ops s)
    as [((R1 & _) & _)|(_ & _ & (_ & _ & P) & O)]; [congruence|].
  rewrite (P r C) in O. destruct O as (O1 & O2 & _ & _ & O5 & O6 & O7).
  rewrite O6. repeat split; assumption.
Qed.

(** X4. In every run from construction the published outcome is
    coherent: before the instance finishes there is no completion state,
    no flag and no terminal event; afterwards exactly one of
    [isSuccessful], [isError] and [isCanceled] is set, it matches the
    completion state and the single terminal event delivered, and the
    outcome is cancel exactly when a cancel request exists, in which case
    [didCancel] recognises the published error. *)
Theorem outcome_coherent ops fn (g : G) d e dbg pt :
  coherent (run ops (new_TaskInstanceState fn g d e dbg pt)).
Proof.
  eapply advances_coherent; [apply run_advances|].
  unfold coherent. simpl. repeat split.
Qed.

(** X5. The outcome of a finished instance is final: no later operation
    changes the completion state, the flags, the value, the error, the
    cancel request or the terminal events delivered, and the body is
    not stepped again. *)
Theorem finished_is_final (s : engine G) ops :
  isFinished (state s) = true ->
  same_result (state s) (state (run ops s))
  /\ cancelRequest (run ops s) = cancelRequest s
  /\ delivered (run ops s) = delivered s
  /\ steps (run ops s) = steps s
  /\ generatorState (run ops s) = generatorState s.
Proof.
  intros F.
  destruct (finished_run_quiescent ops s F) as (_ & Q1 & Q2).
  destruct (run_advances ops s) as [(R & D & _ & C)|(F1 & _)]; [|congruence].
  repeat split; auto; apply R.
Qed.

(** X6. Asking for the promise of an instance for the first time marks
    its errors as handled for good: whatever happens afterwards,
    including the turn of a report already scheduled,
    [env.reportUncaughtRejection] is not called for the instance's own
    error. *)
Theorem promise_suppresses_report (s : engine G) ops :
  defer s = false ->
  asyncErrorsHandled (run ops (promise s)) = true
  /\ unhandled_reports (run ops (promise s)) = unhandled_reports s.
Proof.
  intros D.
  assert (H : asyncErrorsHandled (promise s) = true
              /\ unhandled_reports (promise s) = unhandled_reports s).
  { unfold promise, maybeResolveDefer, unhandled_reports. rewrite D. simpl.
    break; rewrite ?count_app, ?count_one; simpl; split; auto; lia. }
  destruct H as (H1 & H2).
  destruct (run_evolves ops (promise s)) as (_ & _ & A).
  destruct (A H1) as (A1 & A2). split; [exact A1|congruence].
Qed.

Lemma dispatch_queue c s :
  disposers (dispatchFinalizeEvents c s) = disposers s
  /\ env_queue (dispatchFinalizeEvents c s) = env_queue s.
Proof.
  unfold dispatchFinalizeEvents. destruct c as [[| |]|]; auto.
  destruct (cancelRequest s); auto.
Qed.

Lemma maybeResolveDefer_queue s :
  disposers (maybeResolveDefer s) = disposers s
  /\ env_queue (maybeResolveDefer s) = env_queue s
  /\ asyncErrorsHandled (maybeResolveDefer s) = asyncErrorsHandled s
  /\ state (maybeResolveDefer s) = state s.
Proof.
  unfold maybeResolveDefer. destruct (_ || _); auto.
  destruct (completionState (state s)) as [[| |]|]; auto.
Qed.

Lemma finalizeShared_queue p s :
  disposers (finalizeShared p s) = disposers s
  /\ env_queue (finalizeShared p s)
     = env_queue s ++
       (if negb (asyncErrorsHandled s)
           && match match p_completionState p with
                    | Some c => Some c
                    | None => completionState (state s)
                    end with
              | Some COMPLETION_ERROR => true
              | _ => false
              end
           && negb (didCancel (or_else (p_error p) (error (state s))))
        then [ThReportUnhandled] else []).
Proof.
  unfold finalizeShared. cbv zeta.
  match goal with
  | |- context [dispatchFinalizeEvents ?c ?x] =>
      destruct (dispatch_queue c x) as (A & B); rewrite A, B
  end.
  unfold runFinalizeCallbacks, maybeThrowUnhandledTaskErrorLater. cbv zeta.
  match goal with
  | |- context [maybeResolveDefer ?x] =>
      destruct (maybeResolveDefer_queue x) as (A1 & A2 & A3 & A4);
      set (s3 := maybeResolveDefer x) in *
  end.
  rewrite A3, A4.
  cbn [asyncErrorsHandled set_finalizeCallbacks emit_all set_trace setState
       emit state set_state set_index assign completionState error
       p_completionState p_error].
  match goal with
  | |- context [if ?b then env_async _ _ else _] => destruct b
  end.
  - unfold env_async. cbn [disposers env_queue set_env_queue].
    rewrite A1, A2. split; reflexivity.
  - rewrite A1, A2, app_nil_r. split; reflexivity.
Qed.

(** X7. Finishing schedules a report of the error as uncaught in exactly
    one case: the outcome is an error, there is no cancel request, nobody
    has asked for the promise or yielded the instance, and the error is
    not a cancelation.  Success and cancellation never schedule one. *)
Theorem report_scheduled_for_unhandled_error v c (s : engine G) :
  env_queue (finalize v c s)
  = env_queue s ++
    (if match cancelRequest s, c with
        | None, COMPLETION_ERROR =>
            negb (asyncErrorsHandled s) && negb (didCancel v)
        | _, _ => false
        end
     then [ThReportUnhandled] else []).
Proof.
  unfold finalize. destruct (cancelRequest s) as [r|] eqn:E.
  - unfold finalizeWithCancel. rewrite E. cbv beta iota zeta.
    match goal with
    | |- context [finalizeShared ?p ?x] =>
        destruct (finalizeShared_queue p x) as (_ & Q)
    end.
    rewrite Q. cbn [p_completionState]. rewrite andb_false_r.
    destruct (debug (emit _ s) || _); reflexivity.
  - cbv zeta.
    match goal with
    | |- context [finalizeShared ?p s] =>
        destruct (finalizeShared_queue p s) as (_ & Q)
    end.
    rewrite Q. destruct c; cbn [p_completionState p_error or_else];
      rewrite ?andb_false_r, ?andb_true_r; reflexivity.
Qed.

Lemma dispose_frame r s :
  let s' := dispose r s in
  state s' = state s /\ generatorState s' = generatorState s
  /\ cancelRequest s' = cancelRequest s /\ index s' = index s
  /\ env_queue s' = env_queue s /\ disposers s' = []
  /\ expectsLinkedYield s' = expectsLinkedYield s
  /\ delivered s' = delivered s
  /\ trace s' = trace s ++ map (fun d => EvDisposer d r) (disposers s).
Proof.
  unfold dispose, delivered. destruct (disposers s) as [|d ds] eqn:E; simpl.
  - rewrite app_nil_r. repeat split; assumption.
  - repeat split.
    destruct (silent_disposers r ds) as (A & _).
    rewrite filter_app. simpl. rewrite (filter_none _ _ A). apply app_nil_r.
Qed.

(** X8. An exception that leaves the body during a step ends the
    instance in the same call: with no cancel request pending,
    [proceedSync] finishes it in error with the thrown value, tells the
    Delegate [onError], and leaves no disposer behind. *)
Theorem step_failure_finishes_in_error t v e (s : engine G) :
  isFinished (state s) = false ->
  done (generatorState s) = false ->
  cancelRequest s = None ->
  index s <> -1 ->
  task_fn (generatorState s) (iterator (generatorState s)) t v
  = {| step_calls := []; step_end := Threw G e |} ->
  let s' := proceedSync t v s in
  isFinished (state s') = true
  /\ completionState (state s') = Some COMPLETION_ERROR
  /\ isError (state s') = true
  /\ error (state s') = e
  /\ delivered s' = delivered s ++ [EvOnError e]
  /\ done (generatorState s') = true
  /\ disposers s' = []
  /\ index s' = index s + 2.
Proof.
  intros F D C I B. unfold proceedSync. rewrite F.
  destruct (dispose_frame VUndefined s)
    as (A1 & A2 & A3 & A4 & A5 & A6 & A7 & A8 & _).
  cbv zeta in *. set (s1 := dispose VUndefined s) in *.
  rewrite A2, D.
  unfold handleResolvedContinueValue, generatorStep.
  rewrite A2, B. cbn [step_calls step_end fold_left GeneratorState_step].
  set (s2 := set_generatorState _ (emit (EvStep v t) s1)).
  assert (K : forall x : engine G,
             (x = s2 \/ x = set_expectsLinkedYield false s2
              \/ x = set_expectsLinkedYield false (emit EvConsoleWarn s2)) ->
             index x = index s /\ cancelRequest x = None
             /\ delivered x = delivered s /\ disposers x = []
             /\ done (generatorState x) = true /\ state x = state s).
  { intros x [ -> | [ -> | -> ] ]; unfold delivered; simpl;
      rewrite ?filter_app; simpl; rewrite ?app_nil_r;
      fold (delivered s1); rewrite ?A8, ?A4, ?A3, ?A6, ?A1;
      repeat split; auto. }
  match goal with
  | |- context [advanceIndex (index s1) ?x] =>
      assert (Kx : index x = index s /\ cancelRequest x = None
                   /\ delivered x = delivered s /\ disposers x = []
                   /\ done (generatorState x) = true /\ state x = state s);
      [apply K; simpl; destruct (expectsLinkedYield s1); simpl; auto;
       destruct (_ || _); auto|];
      set (s3 := x) in *
  end.
  clearbody s3. destruct Kx as (K1 & K2 & K3 & K4 & K5 & K6).
  unfold advanceIndex. rewrite A4, K1, Z.eqb_refl. cbn [advanced].
  assert (N : (index s + 1 =? 0) = false) by (apply Z.eqb_neq; lia).
  rewrite N. cbn [negb sr_errored sr_value].
  unfold finalize. cbn [cancelRequest set_index]. rewrite K2. cbv zeta.
  match goal with
  | |- context [finalizeShared ?p ?x] =>
      destruct (finalizeShared_outcome p x) as (S1 & S2);
      destruct (finalizeShared_frame p x) as (S3 & _ & _ & _ & S4 & _);
      destruct (finalizeShared_queue p x) as (S5 & _);
      set (s' := finalizeShared p x) in *
  end.
  cbv zeta in S1, S2, S3, S4. rewrite S1, S2, S3, S4, S5.
  change (delivered (set_index (index s + 1) s3)) with (delivered s3).
  change (disposers (set_index (index s + 1) s3)) with (disposers s3).
  change (generatorState (set_index (index s + 1) s3))
    with (generatorState s3).
  rewrite K3, K4, K5. cbn.
  repeat split. lia.
Qed.

Lemma cancel_rejected r q s : cancelRequest s = Some q -> cancel r s = s.
Proof. intros C. unfold cancel, requestCancel. now rewrite C. Qed.

Lemma fold_cancel_rejected l q s :
  cancelRequest s = Some q ->
  fold_left (fun acc why => cancel why acc) l s = s.
Proof.
  intros C. induction l as [|r l IH]; simpl; [reflexivity|].
  now rewrite (cancel_rejected r s C).
Qed.

(** X9. When the body of a started instance cancels its own instance
    during a step, what the step produces is discarded: whether the body
    then yields, returns or throws, nothing is classified, no handler
    is called, no disposer is captured and nothing is finalized; the
    instance is left with the cancel request and one scheduled
    resumption by [return] with the sentinel. *)
Theorem self_cancel_discards_step m v r rest (s : engine G) :
  hasStarted (state s) = true ->
  isFinished (state s) = false ->
  cancelRequest s = None ->
  step_calls (task_fn (generatorState s) (iterator (generatorState s)) m v)
  = r :: rest ->
  let s' := handleResolvedContinueValue m v s in
  s' = snd (generatorStep v m s)
  /\ cancelRequest s'
     = Some {| kind := CANCEL_KIND_EXPLICIT; reason := r |}
  /\ state s' = state s
  /\ index s' = index s + 1
  /\ disposers s' = disposers s
  /\ env_queue s' = env_queue s ++ [ThProceedSync YIELDABLE_RETURN VSentinel]
  /\ delivered s' = delivered s.
Proof.
  intros H F C B. unfold handleResolvedContinueValue, generatorStep.
  rewrite B. cbn [fold_left].
  set (q := {| kind := CANCEL_KIND_EXPLICIT; reason := r |}).
  assert (E1 : cancel r (emit (EvStep v m) s)
               = proceedWithCancelAsync
                   (set_cancelRequest (Some q) (emit (EvStep v m) s))).
  { unfold cancel, requestCancel. simpl. rewrite C, F. simpl. now rewrite H. }
  rewrite E1.
  set (s1 := proceedWithCancelAsync _).
  assert (C1 : cancelRequest s1 = Some q).
  { unfold s1, proceedWithCancelAsync, proceedAsync, advanceIndex.
    rewrite Z.eqb_refl. reflexivity. }
  rewrite (fold_cancel_rejected rest s1 C1).
  destruct (GeneratorState_step (generatorState s1) _) as [sr gs].
  set (s2 := set_generatorState gs s1).
  assert (K : forall x : engine G,
             (x = s2 \/ x = set_expectsLinkedYield false s2
              \/ x = set_expectsLinkedYield false (emit EvConsoleWarn s2)) ->
             cancelRequest x = Some q /\ state x = state s
             /\ index x = index s + 1 /\ disposers x = disposers s
             /\ env_queue x
                = env_queue s ++ [ThProceedSync YIELDABLE_RETURN VSentinel]
             /\ delivered x = delivered s).
  { intros x [ -> | [ -> | -> ] ]; unfold s2, s1, proceedWithCancelAsync,
      proceedAsync, advanceIndex, delivered; rewrite Z.eqb_refl; simpl;
      rewrite ?filter_app; simpl; rewrite ?app_nil_r; repeat split. }
  match goal with
  | |- context [advanceIndex (index s) ?x] =>
      assert (Kx : cancelRequest x = Some q /\ state x = state s
                   /\ index x = index s + 1 /\ disposers x = disposers s
                   /\ env_queue x
                      = env_queue s ++ [ThProceedSync YIELDABLE_RETURN VSentinel]
                   /\ delivered x = delivered s);
      [apply K; destruct (expectsLinkedYield s2); auto;
       destruct (_ || _); auto|];
      set (s3 := x) in *
  end.
  clearbody s3. destruct Kx as (K1 & K2 & K3 & K4 & K5 & K6).
  unfold advanceIndex. rewrite K3.
  assert (N : (index s + 1 =? index s) = false) by (apply Z.eqb_neq; lia).
  rewrite N. cbn [advanced negb snd].
  cbv zeta. repeat split; assumption.
Qed.

(** X10. What an honoured resumption does: the index moves on by two,
    exactly one [proceedSync] is scheduled and nothing runs yet; the
    resume kind and value are passed on as given, except that a cancel
    signal is turned into a cancel request of kind yielded, without a
    reason and only if none exists, and a resumption by [return] with
    the sentinel. *)
Theorem honoured_resumption_effect i t v (s : engine G) :
  accepts i s = true ->
  i <> -1 ->
  let s' := proceedChecked i t v s in
  index s' = i + 2
  /\ trace s' = trace s
  /\ state s' = state s
  /\ env_queue s'
     = env_queue s ++
       [match t with
        | YIELDABLE_CANCEL => ThProceedSync YIELDABLE_RETURN VSentinel
        | _ => ThProceedSync t v
        end]
  /\ cancelRequest s'
     = match t, cancelRequest s with
       | YIELDABLE_CANCEL, None =>
           Some {| kind := CANCEL_KIND_YIELDED; reason := VUndefined |}
       | _, c => c
       end.
Proof.
  unfold accepts. intros A I.
  apply andb_prop in A. destruct A as (A1 & A2).
  apply negb_true_iff in A1. apply Z.eqb_eq in A2. subst i.
  cbv zeta. unfold proceedChecked, advanceIndex.
  rewrite A1, Z.eqb_refl. cbn [advanced].
  assert (N : (index s + 1 =? 0) = false) by (apply Z.eqb_neq; lia).
  rewrite N. cbn [negb].
  set (s1 := set_index (index s + 1) s).
  assert (Q : forall k w (x : engine G),
             index x = index s + 1 -> trace x = trace s ->
             state x = state s -> env_queue x = env_queue s ->
             index (proceedAsync k w x) = index s + 2
             /\ trace (proceedAsync k w x) = trace s
             /\ state (proceedAsync k w x) = state s
             /\ env_queue (proceedAsync k w x)
                = env_queue s ++ [ThProceedSync k w]
             /\ cancelRequest (proceedAsync k w x) = cancelRequest x).
  { intros k w x X1 X2 X3 X4.
    destruct (proceedAsync_frame k w x) as (B1 & _ & _ & B4 & B5 & B6).
    cbv zeta in *. rewrite proceedAsync_index, B1, B4, B5, B6, X1, X2, X3, X4.
    repeat split. lia. }
  destruct t;
    try (match goal with
         | |- context [proceedAsync ?k ?w s1] =>
             destruct (Q k w s1) as (Q1 & Q2 & Q3 & Q4 & Q5);
             try reflexivity;
             repeat split; assumption
         end).
  unfold proceedWithCancelAsync, requestCancel.
  change (cancelRequest s1) with (cancelRequest s).
  change (state s1) with (state s). rewrite A1.
  destruct (cancelRequest s) eqn:C; cbn [snd].
  - destruct (Q YIELDABLE_RETURN VSentinel s1) as (Q1 & Q2 & Q3 & Q4 & Q5);
      try reflexivity.
    rewrite Q5. repeat split; assumption.
  - match goal with
    | |- context [proceedAsync _ _ ?x] =>
        destruct (Q YIELDABLE_RETURN VSentinel x) as (Q1 & Q2 & Q3 & Q4 & Q5);
        try reflexivity
    end.
    rewrite Q5. repeat split; assumption.
Qed.

(** X11. A ticket does not survive a cancellation: once [cancel] has been
    accepted, a resumption presenting the index that was current at the
    time, for instance the late resolution of the promise the body was
    waiting on, is ignored, now and after anything else that happens. *)
Theorem cancel_expires_ticket r t v (s : engine G) ops :
  cancelRequest s = None ->
  isFinished (state s) = false ->
  proceedChecked (index s) t v (run ops (cancel r s)) = run ops (cancel r s).
Proof.
  intros C F. apply proceedChecked_stale. unfold accepts.
  assert (H : index s < index (run ops (cancel r s))).
  { destruct (run_evolves ops (cancel r s)) as (H & _).
    assert (H1 : index s < index (cancel r s)); [|lia].
    unfold cancel, requestCancel. rewrite C, F. cbn [negb state set_cancelRequest].
    destruct (hasStarted (state s)).
    - unfold proceedWithCancelAsync. rewrite proceedAsync_index. simpl. lia.
    - destruct (finalizeWithCancel_evolves
                  (set_cancelRequest
                     (Some {| kind := CANCEL_KIND_EXPLICIT; reason := r |}) s))
        as (_ & [(Q & _)|(_ & _ & _ & Q & _)] & _);
        simpl; try congruence.
      + simpl in Q. rewrite F in Q.
        destruct (finalizeWithCancel_outcome
                    (set_cancelRequest
                       (Some {| kind := CANCEL_KIND_EXPLICIT; reason := r |}) s)
                    eq_refl) as (Q' & _). congruence.
      + simpl in Q. exact Q. }
  assert (E : (index (run ops (cancel r s)) =? index s) = false)
    by (apply Z.eqb_neq; lia).
  rewrite E. apply andb_false_r.
Qed.

(** X12. A child that was yielded into a parent resumes that parent with
    its own outcome when it finishes: [YIELDABLE_CONTINUE] with the
    value on success, [YIELDABLE_THROW] with the error on error and
    [YIELDABLE_CANCEL] when it was canceled; the callback reads the state
    that finalization has just published. *)
Theorem yielded_child_resumes_parent parent i v c (s : engine G) :
  In (CbResumeParent parent i) (finalizeCallbacks s) ->
  In (match cancelRequest s, c with
      | Some _, _ | None, COMPLETION_CANCEL =>
          EvParentProceedChecked parent i YIELDABLE_CANCEL VNull
      | None, COMPLETION_ERROR =>
          EvParentProceedChecked parent i YIELDABLE_THROW v
      | None, COMPLETION_SUCCESS =>
          EvParentProceedChecked parent i YIELDABLE_CONTINUE v
      end)
     (trace (finalize v c s)).
Proof.
  intros I.
  assert (K : forall p (x : engine G),
             In (CbResumeParent parent i) (finalizeCallbacks x) ->
             forall ev,
               In ev (run_callback
                        (assign (state x)
                           {| p_hasStarted := p_hasStarted p;
                              p_isFinished := Some true;
                              p_isSuccessful := p_isSuccessful p;
                              p_isError := p_isError p;
                              p_isCanceled := p_isCanceled p;
                              p_completionState := p_completionState p;
                              p_value := p_value p; p_error := p_error p;
                              p_cancelReason := p_cancelReason p |})
                        (CbResumeParent parent i)) ->
               In ev (trace (finalizeShared p x))).
  { intros p x Hx ev Hev.
    unfold finalizeShared, dispatchFinalizeEvents, runFinalizeCallbacks,
      maybeThrowUnhandledTaskErrorLater, maybeResolveDefer, setState.
    assert (Hin : In ev (flat_map
               (run_callback
                  (assign (state x)
                     {| p_hasStarted := p_hasStarted p;
                        p_isFinished := Some true;
                        p_isSuccessful := p_isSuccessful p;
                        p_isError := p_isError p;
                        p_isCanceled := p_isCanceled p;
                        p_completionState := p_completionState p;
                        p_value := p_value p; p_error := p_error p;
                        p_cancelReason := p_cancelReason p |}))
               (finalizeCallbacks x)))
      by (apply in_flat_map; eauto).
    simpl. break; rewrite ?in_app_iff; auto 10. }
  unfold finalize. destruct (cancelRequest s) as [r|] eqn:E.
  - unfold finalizeWithCancel. rewrite E. cbv beta iota zeta.
    apply K; [destruct (debug (emit _ s) || _); exact I|].
    simpl. auto.
  - cbv zeta. apply K; [exact I|].
    destruct c; simpl; auto.
Qed.

(** ** Steps and disposers *)

Lemma disposed_app l1 l2 : disposed (l1 ++ l2) = disposed l1 ++ disposed l2.
Proof. apply flat_map_app. Qed.

Lemma keeps_disposers_refl s : keeps_disposers s s.
Proof. exists [], []. now rewrite !app_nil_r. Qed.

Lemma keeps_disposers_trans s1 s2 s3 :
  keeps_disposers s1 s2 -> keeps_disposers s2 s3 -> keeps_disposers s1 s3.
Proof.
  intros (c1 & a1 & A & B) (c2 & a2 & A' & B').
  exists (c1 ++ c2), (a1 ++ a2). split.
  - now rewrite A', A, app_assoc.
  - now rewrite <- app_assoc, B', !app_assoc, B.
Qed.

Lemma tame_refl s : tame s s.
Proof. repeat split. apply keeps_disposers_refl. Qed.

Lemma tame_trans s1 s2 s3 : tame s1 s2 -> tame s2 s3 -> tame s1 s3.
Proof.
  intros (A & B & C) (A' & B' & C').
  split; [congruence|]. split; [congruence|].
  eapply keeps_disposers_trans; eauto.
Qed.

Lemma tame_quiet s s' d :
  trace s' = trace s ++ d ->
  count is_step d = O -> disposed d = [] ->
  generatorState s' = generatorState s ->
  disposers s' = disposers s ->
  tame s s'.
Proof.
  intros T C D Gs Ds. unfold tame, steps.
  rewrite T, count_app, C, Nat.add_0_r.
  split; [reflexivity|]. split; [exact Gs|].
  exists [], []. now rewrite T, disposed_app, D, Ds, !app_nil_r.
Qed.

Ltac tame_with delta :=
  apply tame_quiet with (d := delta);
  [ simpl; rewrite ?app_nil_r; reflexivity
  | reflexivity | reflexivity | reflexivity | reflexivity ].

Lemma emit_tame e s :
  is_step e = false -> disposed [e] = [] -> tame s (emit e s).
Proof.
  intros A B. apply tame_quiet with (d := [e]); auto.
  now rewrite count_one, A.
Qed.

Lemma advanceIndex_tame i s : tame s (snd (advanceIndex i s)).
Proof.
  unfold advanceIndex. destruct (index s =? i); simpl.
  - tame_with (@nil event).
  - apply tame_refl.
Qed.

Lemma proceedAsync_tame t v s : tame s (proceedAsync t v s).
Proof.
  unfold proceedAsync, advanceIndex. rewrite Z.eqb_refl. simpl.
  tame_with (@nil event).
Qed.

Lemma requestCancel_tame r s : tame s (snd (requestCancel r s)).
Proof.
  unfold requestCancel. destruct (cancelRequest s); [apply tame_refl|].
  destruct (isFinished (state s)); [apply tame_refl|]. simpl.
  tame_with (@nil event).
Qed.

Lemma proceedChecked_tame i t v s : tame s (proceedChecked i t v s).
Proof.
  unfold proceedChecked. destruct (isFinished (state s)); [apply tame_refl|].
  pose proof (advanceIndex_tame i s) as H.
  destruct (advanceIndex i s) as [r s1]. simpl in H.
  destruct (advanced r); simpl; [|exact H].
  eapply tame_trans; [exact H|].
  destruct t; try apply proceedAsync_tame.
  eapply tame_trans; [apply requestCancel_tame|apply proceedAsync_tame].
Qed.

Lemma resume_each_tame i l s : tame s (resume_each i l s).
Proof.
  unfold resume_each. revert s.
  induction l as [|a l IH]; intros s; simpl; [apply tame_refl|].
  eapply tame_trans; [apply proceedChecked_tame|apply IH].
Qed.

Lemma addDisposer_tame d s : tame s (addDisposer d s).
Proof.
  unfold addDisposer.
  destruct d; try apply tame_refl.
  repeat split. exists [], [VFun f]. simpl. now rewrite app_nil_r.
Qed.

Lemma disposed_disposers (r : jsval) ds :
  disposed (map (fun d => EvDisposer d r) ds) = ds.
Proof. induction ds as [|d ds IH]; simpl; [reflexivity|]. now rewrite IH. Qed.

Lemma dispose_tame r s : tame s (dispose r s).
Proof.
  unfold dispose. destruct (disposers s) as [|d ds] eqn:E; [apply tame_refl|].
  assert (C : count is_step (map (fun d0 => EvDisposer d0 r) (d :: ds)) = O).
  { apply count_none. intros e H. apply in_map_iff in H.
    destruct H as (x & <- & _). reflexivity. }
  unfold tame, steps, emit_all.
  cbn [trace set_trace set_disposers generatorState disposers].
  rewrite count_app, C, Nat.add_0_r.
  split; [reflexivity|]. split; [reflexivity|].
  exists (d :: ds), []. unfold emit_all.
  cbn [trace set_trace set_disposers disposers].
  rewrite disposed_app, (disposed_disposers r (d :: ds)), E, !app_nil_r.
  split; reflexivity.
Qed.

Lemma maybeResolveDefer_tame s : tame s (maybeResolveDefer s).
Proof.
  unfold maybeResolveDefer.
  destruct (negb (defer s) || negb (isFinished (state s))); [apply tame_refl|].
  destruct (completionState (state s)) as [[| |]|]; apply emit_tame; reflexivity.
Qed.

Lemma maybeThrowUnhandledTaskErrorLater_tame s :
  tame s (maybeThrowUnhandledTaskErrorLater s).
Proof.
  unfold maybeThrowUnhandledTaskErrorLater.
  match goal with |- context [if ?b then _ else _] => destruct b end;
    [|apply tame_refl].
  tame_with (@nil event).
Qed.

Lemma disposed_callbacks st l : disposed (flat_map (run_callback st) l) = [].
Proof.
  induction l as [|cb l IH]; simpl; [reflexivity|].
  rewrite disposed_app, IH, app_nil_r.
  destruct cb; simpl; [reflexivity|].
  destruct (completionState st) as [[| |]|]; reflexivity.
Qed.

Lemma runFinalizeCallbacks_tame s : tame s (runFinalizeCallbacks s).
Proof.
  unfold runFinalizeCallbacks.
  eapply tame_trans; [|apply maybeThrowUnhandledTaskErrorLater_tame].
  eapply tame_trans; [|apply maybeResolveDefer_tame].
  apply tame_quiet with
    (d := flat_map (run_callback (state s)) (finalizeCallbacks s));
    simpl; auto.
  - apply count_callbacks; reflexivity.
  - apply disposed_callbacks.
Qed.

Lemma dispatch_tame c s : tame s (dispatchFinalizeEvents c s).
Proof.
  unfold dispatchFinalizeEvents.
  destruct c as [[| |]|]; try apply tame_refl;
    try (apply emit_tame; reflexivity).
  destruct (cancelRequest s); apply emit_tame; reflexivity.
Qed.

Lemma finalizeShared_tame p s : tame s (finalizeShared p s).
Proof.
  unfold finalizeShared. cbv zeta.
  eapply tame_trans; [|apply dispatch_tame].
  eapply tame_trans; [|apply runFinalizeCallbacks_tame].
  unfold setState.
  match goal with
  | |- tame _ (emit ?e ?x) =>
      apply tame_trans with x; [tame_with (@nil event)|]
  end.
  apply emit_tame; reflexivity.
Qed.

Lemma finalizeWithCancel_tame s : tame s (finalizeWithCancel s).
Proof.
  unfold finalizeWithCancel. destruct (cancelRequest s).
  - cbv zeta. eapply tame_trans; [|apply finalizeShared_tame].
    destruct (_ || _);
      repeat (eapply tame_trans; [|apply emit_tame; reflexivity]);
      apply tame_refl.
  - apply emit_tame; reflexivity.
Qed.

Lemma finalize_tame v c s : tame s (finalize v c s).
Proof.
  unfold finalize. destruct (cancelRequest s);
    [apply finalizeWithCancel_tame|apply finalizeShared_tame].
Qed.

Lemma cancel_tame r s : tame s (cancel r s).
Proof.
  unfold cancel.
  pose proof (requestCancel_tame
                {| kind := CANCEL_KIND_EXPLICIT; reason := r |} s) as H.
  destruct (requestCancel _ s) as [ok s1]. simpl in H.
  destruct ok; simpl; [|exact H].
  eapply tame_trans; [exact H|].
  destruct (hasStarted (state s1));
    [apply proceedAsync_tame|apply finalizeWithCancel_tame].
Qed.

Lemma fold_cancel_tame l s :
  tame s (fold_left (fun acc why => cancel why acc) l s).
Proof.
  revert s. induction l as [|r l IH]; intros s; simpl; [apply tame_refl|].
  eapply tame_trans; [apply cancel_tame|apply IH].
Qed.

Lemma invokeYieldable_tame y s : tame s (invokeYieldable y s).
Proof.
  unfold invokeYieldable.
  destruct (get_yieldable y) as [h|].
  - match goal with
    | |- context [resume_each ?i ?l ?x] =>
        pose proof (resume_each_tame i l x) as H;
        set (s3 := resume_each i l x) in *
    end.
    assert (H1 : tame s s3).
    { eapply tame_trans; [|exact H].
      eapply tame_trans; apply emit_tame; reflexivity. }
    eapply tame_trans; [exact H1|].
    destruct (h_result h).
    + apply addDisposer_tame.
    + apply emit_tame; reflexivity.
  - eapply tame_trans; apply emit_tame; reflexivity.
Qed.

Lemma handleYieldedUnknownThenable_tame th s :
  tame s (handleYieldedUnknownThenable th s).
Proof.
  unfold handleYieldedUnknownThenable.
  eapply tame_trans; [|apply resume_each_tame].
  apply emit_tame; reflexivity.
Qed.

Lemma handleYieldedValue_tame sr s : tame s (handleYieldedValue sr s).
Proof.
  unfold handleYieldedValue, proceedWithSimpleValue.
  destruct (negb (truthy (sr_value sr))); [apply proceedAsync_tame|].
  destruct (get_raw (sr_value sr)); [apply proceedAsync_tame|].
  eapply tame_trans; [apply addDisposer_tame|].
  destruct (get_yieldable (sr_value sr)); [apply invokeYieldable_tame|].
  destruct (get_then (sr_value sr));
    [apply handleYieldedUnknownThenable_tame|apply proceedAsync_tame].
Qed.

Lemma handleResolvedReturnedValue_tame t v s :
  tame s (handleResolvedReturnedValue t v s).
Proof.
  destruct t; cbn [handleResolvedReturnedValue];
    try apply finalize_tame. apply tame_refl.
Qed.

(** One step of the body: one more [EvStep], no disposer lost. *)
Lemma handleResolvedContinueValue_step m v s :
  steps (handleResolvedContinueValue m v s) = S (steps s)
  /\ keeps_disposers s (handleResolvedContinueValue m v s).
Proof.
  unfold handleResolvedContinueValue, generatorStep.
  match goal with
  | |- context [fold_left ?f ?l ?x] =>
      pose proof (fold_cancel_tame l x) as H; set (s2 := fold_left f l x) in *
  end.
  assert (H1 : steps s2 = S (steps s) /\ keeps_disposers s s2).
  { destruct H as (A & _ & C). split.
    - rewrite A. unfold steps. simpl. rewrite count_app, count_one. simpl. lia.
    - eapply keeps_disposers_trans; [|exact C].
      exists [], []. simpl. now rewrite disposed_app, !app_nil_r. }
  clear H. destruct H1 as (H1 & H2).
  destruct (GeneratorState_step (generatorState s2) _) as [sr gs].
  match goal with
  | |- context [advanceIndex (index s) ?x] =>
      assert (K : steps x = steps s2 /\ keeps_disposers s2 x);
      [|set (s3 := x) in *]
  end.
  { destruct (expectsLinkedYield _); [|split; [reflexivity|]].
    - destruct (_ || _); unfold steps; simpl;
        rewrite ?count_app, ?count_one; simpl; (split; [lia|]);
        exists [], []; simpl; now rewrite ?disposed_app, !app_nil_r.
    - exists [], []. simpl. now rewrite !app_nil_r. }
  clearbody s3. destruct K as (K1 & K2).
  pose proof (advanceIndex_tame (index s) s3) as T.
  destruct (advanceIndex (index s) s3) as [r s4]. cbn [snd] in T.
  destruct T as (T1 & _ & T3).
  assert (Q : forall x, tame s4 x ->
                        steps x = S (steps s) /\ keeps_disposers s x).
  { intros x (X1 & _ & X3). split; [congruence|].
    eapply keeps_disposers_trans; [exact H2|].
    eapply keeps_disposers_trans; [exact K2|].
    eapply keeps_disposers_trans; [exact T3|exact X3]. }
  destruct (advanced r); cbn [negb]; [|apply Q, tame_refl].
  destruct (sr_errored sr); apply Q;
    [apply finalize_tame|apply handleYieldedValue_tame].
Qed.

Lemma proceedSync_steps t v s :
  steps (proceedSync t v s)
  = (steps s
     + (if isFinished (state s) || done (generatorState s) then 0 else 1))%nat
  /\ keeps_disposers s (proceedSync t v s).
Proof.
  unfold proceedSync.
  destruct (isFinished (state s)); cbn [orb];
    [split; [lia|apply keeps_disposers_refl]|].
  destruct (dispose_tame VUndefined s) as (A & B & C).
  rewrite B. destruct (done (generatorState s)).
  - destruct (handleResolvedReturnedValue_tame t v (dispose VUndefined s))
      as (A' & _ & C').
    split; [lia|]. eapply keeps_disposers_trans; eauto.
  - destruct (handleResolvedContinueValue_step t v (dispose VUndefined s))
      as (A' & C').
    split; [lia|]. eapply keeps_disposers_trans; eauto.
Qed.

Lemma onFinalize_tame cb s : tame s (onFinalize cb s).
Proof.
  unfold onFinalize. cbn [state set_finalizeCallbacks].
  assert (H : tame s (set_finalizeCallbacks (finalizeCallbacks s ++ [cb]) s))
    by (tame_with (@nil event)).
  destruct (isFinished (state s)); [|exact H].
  eapply tame_trans; [exact H|apply runFinalizeCallbacks_tame].
Qed.

Lemma promise_tame s : tame s (promise s).
Proof.
  unfold promise. destruct (negb (defer s)); [|apply tame_refl].
  eapply tame_trans; [|apply maybeResolveDefer_tame].
  tame_with [EvDefer].
Qed.

Lemma start_steps s :
  steps (start s)
  = (steps s
     + (if hasStarted (state s) || is_some (cancelRequest s)
           || isFinished (state s) || done (generatorState s)
        then 0 else 1))%nat
  /\ keeps_disposers s (start s).
Proof.
  unfold start.
  destruct (hasStarted (state s) || is_some (cancelRequest s)); cbn [orb];
    [split; [lia|apply keeps_disposers_refl]|].
  match goal with
  | |- context [proceedSync ?t ?v ?x] =>
      destruct (proceedSync_steps t v x) as (A & B);
      assert (E1 : steps x = steps s)
        by (unfold steps, setState; simpl;
            rewrite count_app, count_one; simpl; lia);
      assert (E2 : isFinished (state x) = isFinished (state s)) by reflexivity;
      assert (E3 : generatorState x = generatorState s) by reflexivity;
      assert (E4 : keeps_disposers s x)
        by (exists [], []; unfold setState; simpl;
            now rewrite disposed_app, !app_nil_r);
      set (s1 := x) in *;
      set (s2 := proceedSync t v s1) in *
  end.
  clearbody s1. rewrite E1, E2, E3 in A. split.
  - unfold steps at 1. unfold emit. cbn [trace set_trace].
    rewrite count_app, count_one. cbn [is_step]. fold (steps s2).
    rewrite A. lia.
  - eapply keeps_disposers_trans; [exact E4|].
    eapply keeps_disposers_trans; [exact B|].
    exists [], []. unfold emit. cbn [trace set_trace disposers].
    now rewrite disposed_app, !app_nil_r.
Qed.

Lemma run_thunk_steps th s :
  (steps (run_thunk th s) <= S (steps s))%nat
  /\ (done (generatorState s) = true -> steps (run_thunk th s) = steps s)
  /\ keeps_disposers s (run_thunk th s).
Proof.
  destruct th; cbn [run_thunk].
  - destruct (proceedSync_steps yieldResumeType v s) as (A & B).
    split; [|split; [|exact B]].
    + rewrite A.
      match goal with |- context [if ?b then _ else _] => destruct b end; lia.
    + intros D. rewrite A, D, orb_true_r. cbv iota. lia.
  - destruct (negb _).
    + unfold steps. simpl. rewrite count_app, count_one. simpl.
      split; [lia|]. split; [intros; lia|].
      exists [], []. simpl. now rewrite disposed_app, !app_nil_r.
    + split; [lia|]. split; [reflexivity|apply keeps_disposers_refl].
Qed.

Lemma apply_op_steps o s :
  (steps (apply_op o s) <= S (steps s))%nat
  /\ (done (generatorState s) = true -> steps (apply_op o s) = steps s)
  /\ keeps_disposers s (apply_op o s).
Proof.
  assert (T : forall x, tame s x ->
                (steps x <= S (steps s))%nat
                /\ (done (generatorState s) = true -> steps x = steps s)
                /\ keeps_disposers s x).
  { intros x (A & _ & C). split; [lia|]. split; [auto|exact C]. }
  destruct o; cbn [apply_op];
    try (apply T; solve [auto using cancel_tame, proceedChecked_tame,
                           onFinalize_tame, promise_tame]).
  - destruct (start_steps s) as (A & B). split; [|split; [|exact B]].
    + rewrite A.
      match goal with |- context [if ?b then _ else _] => destruct b end; lia.
    + intros D. rewrite A, D, orb_true_r. cbv iota. lia.
  - destruct (proceedSync_steps t v s) as (A & B). split; [|split; [|exact B]].
    + rewrite A.
      match goal with |- context [if ?b then _ else _] => destruct b end; lia.
    + intros D. rewrite A, D, orb_true_r. cbv iota. lia.
  - apply T. unfold onYielded. cbn [snd].
    eapply tame_trans; [|apply onFinalize_tame]. tame_with (@nil event).
  - unfold turn. destruct (nth_error (env_queue s) n) as [th|];
      [|apply T, tame_refl].
    match goal with
    | |- context [run_thunk th ?x] =>
        destruct (run_thunk_steps th x) as (A & B & C)
    end.
    split; [exact A|]. split; [exact B|].
    eapply keeps_disposers_trans; [|exact C].
    exists [], []. simpl. now rewrite !app_nil_r.
Qed.

Lemma done_persists o s :
  done (generatorState s) = true ->
  done (generatorState (apply_op o s)) = true.
Proof.
  intros D.
  assert (T : forall x, tame s x -> done (generatorState x) = true)
    by (intros x (_ & B & _); congruence).
  assert (P : forall t v x, generatorState x = generatorState s ->
                done (generatorState (proceedSync t v x)) = true).
  { intros t v x E. unfold proceedSync.
    destruct (isFinished (state x)); [congruence|].
    destruct (dispose_tame VUndefined x) as (_ & B & _).
    rewrite B, E, D.
    destruct (handleResolvedReturnedValue_tame t v (dispose VUndefined x))
      as (_ & B' & _). congruence. }
  destruct o; cbn [apply_op];
    try (apply T; solve [auto using cancel_tame, proceedChecked_tame,
                           onFinalize_tame, promise_tame]).
  - unfold start. destruct (_ || _); [exact D|]. simpl.
    apply P. reflexivity.
  - apply P. reflexivity.
  - apply T. unfold onYielded. cbn [snd].
    eapply tame_trans; [|apply onFinalize_tame]. tame_with (@nil event).
  - unfold turn. destruct (nth_error (env_queue s) n) as [[k w|]|];
      cbn [run_thunk]; [apply P; reflexivity| |exact D].
    destruct (negb _); exact D.
Qed.

(** X13. Once the body has reported completion it is never stepped
    again, whatever is done with the instance. *)
Theorem done_body_never_stepped (s : engine G) ops :
  done (generatorState s) = true ->
  steps (run ops s) = steps s /\ done (generatorState (run ops s)) = true.
Proof.
  unfold run. revert s.
  induction ops as [|o ops IH]; intros s D; simpl; [auto|].
  destruct (apply_op_steps o s) as (_ & A & _).
  destruct (IH _ (done_persists o s D)) as (B & C).
  split; [rewrite B; auto|exact C].
Qed.

(** X14. The body is stepped exactly by [proceedSync] on an instance that
    is not finished and whose body is not done, once per call; [start]
    steps it once unless the instance has started, carries a cancel
    request, is finished or is done; no operation steps it twice. *)
Theorem body_stepped_once_per_resumption t v o (s : engine G) :
  steps (proceedSync t v s)
  = (steps s
     + (if isFinished (state s) || done (generatorState s) then 0 else 1))%nat
  /\ steps (start s)
     = (steps s
        + (if hasStarted (state s) || is_some (cancelRequest s)
              || isFinished (state s) || done (generatorState s)
           then 0 else 1))%nat
  /\ (steps (apply_op o s) <= S (steps s))%nat.
Proof.
  split; [apply proceedSync_steps|]. split; [apply start_steps|].
  apply apply_op_steps.
Qed.

(** ** Disposers, call by call *)

Lemma undisturbed_refl s : undisturbed s s.
Proof. split; reflexivity. Qed.

Lemma undisturbed_trans s1 s2 s3 :
  undisturbed s1 s2 -> undisturbed s2 s3 -> undisturbed s1 s3.
Proof. intros (A & B) (A' & B'). split; congruence. Qed.

Lemma undisturbed_quiet s s' d :
  trace s' = trace s ++ d -> disposed d = [] ->
  disposers s' = disposers s ->
  undisturbed s s'.
Proof.
  intros T D Ds. split; [exact Ds|].
  now rewrite T, disposed_app, D, app_nil_r.
Qed.

Ltac calm_with delta :=
  apply undisturbed_quiet with (d := delta);
  [ simpl; rewrite ?app_nil_r; reflexivity | reflexivity | reflexivity ].

Lemma emit_undisturbed e s : disposed [e] = [] -> undisturbed s (emit e s).
Proof. intros D. apply undisturbed_quiet with (d := [e]); auto. Qed.

Lemma proceedAsync_undisturbed t v s : undisturbed s (proceedAsync t v s).
Proof.
  destruct (proceedAsync_frame t v s) as (_ & _ & A & B & _).
  cbv zeta in A, B. split; congruence.
Qed.

Lemma proceedChecked_undisturbed i t v s :
  undisturbed s (proceedChecked i t v s).
Proof.
  destruct (proceedChecked_frame i t v s) as (_ & _ & A & B).
  cbv zeta in A, B. split; congruence.
Qed.

Lemma resume_each_undisturbed i l s : undisturbed s (resume_each i l s).
Proof.
  destruct (resume_each_frame i l s) as (_ & _ & A & B).
  cbv zeta in A, B. split; congruence.
Qed.

Lemma requestCancel_undisturbed r s : undisturbed s (snd (requestCancel r s)).
Proof.
  unfold requestCancel. destruct (cancelRequest s); [apply undisturbed_refl|].
  destruct (isFinished (state s)); [apply undisturbed_refl|]. simpl.
  calm_with (@nil event).
Qed.

Lemma maybeResolveDefer_undisturbed s : undisturbed s (maybeResolveDefer s).
Proof.
  unfold maybeResolveDefer.
  destruct (negb (defer s) || negb (isFinished (state s)));
    [apply undisturbed_refl|].
  destruct (completionState (state s)) as [[| |]|];
    apply emit_undisturbed; reflexivity.
Qed.

Lemma maybeThrowUnhandledTaskErrorLater_undisturbed s :
  undisturbed s (maybeThrowUnhandledTaskErrorLater s).
Proof.
  unfold maybeThrowUnhandledTaskErrorLater.
  match goal with |- context [if ?b then _ else _] => destruct b end;
    [|apply undisturbed_refl].
  calm_with (@nil event).
Qed.

Lemma runFinalizeCallbacks_undisturbed s :
  undisturbed s (runFinalizeCallbacks s).
Proof.
  unfold runFinalizeCallbacks.
  eapply undisturbed_trans;
    [|apply maybeThrowUnhandledTaskErrorLater_undisturbed].
  eapply undisturbed_trans; [|apply maybeResolveDefer_undisturbed].
  apply undisturbed_quiet with
    (d := flat_map (run_callback (state s)) (finalizeCallbacks s));
    simpl; auto.
  apply disposed_callbacks.
Qed.

Lemma dispatch_undisturbed c s : undisturbed s (dispatchFinalizeEvents c s).
Proof.
  unfold dispatchFinalizeEvents.
  destruct c as [[| |]|]; try apply undisturbed_refl;
    try (apply emit_undisturbed; reflexivity).
  destruct (cancelRequest s); apply emit_undisturbed; reflexivity.
Qed.

Lemma setState_undisturbed p s : undisturbed s (setState p s).
Proof. unfold setState. calm_with [EvSetState p]. Qed.

Lemma finalizeShared_undisturbed p s : undisturbed s (finalizeShared p s).
Proof.
  unfold finalizeShared. cbv zeta.
  eapply undisturbed_trans; [|apply dispatch_undisturbed].
  eapply undisturbed_trans; [|apply runFinalizeCallbacks_undisturbed].
  match goal with
  | |- undisturbed _ (setState ?q ?x) =>
      apply undisturbed_trans with x;
      [calm_with (@nil event)|apply setState_undisturbed]
  end.
Qed.

Lemma finalizeWithCancel_undisturbed s : undisturbed s (finalizeWithCancel s).
Proof.
  unfold finalizeWithCancel. destruct (cancelRequest s).
  - cbv zeta. eapply undisturbed_trans; [|apply finalizeShared_undisturbed].
    destruct (_ || _);
      repeat (eapply undisturbed_trans;
              [|apply emit_undisturbed; reflexivity]);
      apply undisturbed_refl.
  - apply emit_undisturbed; reflexivity.
Qed.

Lemma finalize_undisturbed v c s : undisturbed s (finalize v c s).
Proof.
  unfold finalize. destruct (cancelRequest s);
    [apply finalizeWithCancel_undisturbed|apply finalizeShared_undisturbed].
Qed.

Lemma cancel_undisturbed r s : undisturbed s (cancel r s).
Proof.
  unfold cancel.
  pose proof (requestCancel_undisturbed
                {| kind := CANCEL_KIND_EXPLICIT; reason := r |} s) as H.
  destruct (requestCancel _ s) as [ok s1]. simpl in H.
  destruct ok; simpl; [|exact H].
  eapply undisturbed_trans; [exact H|].
  destruct (hasStarted (state s1));
    [apply proceedAsync_undisturbed|apply finalizeWithCancel_undisturbed].
Qed.

Lemma fold_cancel_undisturbed l s :
  undisturbed s (fold_left (fun acc why => cancel why acc) l s).
Proof.
  revert s. induction l as [|r l IH]; intros s; simpl;
    [apply undisturbed_refl|].
  eapply undisturbed_trans; [apply cancel_undisturbed|apply IH].
Qed.

Lemma generatorStep_undisturbed v m s :
  undisturbed s (snd (generatorStep v m s)).
Proof.
  unfold generatorStep.
  match goal with
  | |- context [fold_left ?f ?l ?x] =>
      pose proof (fold_cancel_undisturbed l x) as H;
      set (s2 := fold_left f l x) in *
  end.
  assert (H1 : undisturbed s s2).
  { eapply undisturbed_trans; [|exact H].
    apply emit_undisturbed; reflexivity. }
  clear H. clearbody s2.
  destruct (GeneratorState_step (generatorState s2) _) as [sr gs].
  cbn [snd]. eapply undisturbed_trans; [exact H1|].
  destruct (expectsLinkedYield _); [|calm_with (@nil event)].
  destruct (_ || _); [calm_with [EvConsoleWarn]|calm_with (@nil event)].
Qed.

Lemma onFinalize_undisturbed cb s : undisturbed s (onFinalize cb s).
Proof.
  unfold onFinalize. cbn [state set_finalizeCallbacks].
  assert (H : undisturbed s
                (set_finalizeCallbacks (finalizeCallbacks s ++ [cb]) s))
    by (calm_with (@nil event)).
  destruct (isFinished (state s)); [|exact H].
  eapply undisturbed_trans; [exact H|apply runFinalizeCallbacks_undisturbed].
Qed.

Lemma promise_undisturbed s : undisturbed s (promise s).
Proof.
  unfold promise. destruct (negb (defer s)); [|apply undisturbed_refl].
  eapply undisturbed_trans; [|apply maybeResolveDefer_undisturbed].
  calm_with [EvDefer].
Qed.

Lemma handleResolvedReturnedValue_undisturbed t v s :
  undisturbed s (handleResolvedReturnedValue t v s).
Proof.
  destruct t; cbn [handleResolvedReturnedValue];
    try apply finalize_undisturbed. apply undisturbed_refl.
Qed.

(** What is captured, exactly. *)
Lemma addDisposer_captures d s :
  disposers (addDisposer d s) = disposers s ++ as_disposer d
  /\ disposed (trace (addDisposer d s)) = disposed (trace s).
Proof.
  unfold addDisposer, as_disposer.
  destruct d; simpl; rewrite ?app_nil_r; split; reflexivity.
Qed.

Lemma invokeYieldable_captures y s :
  disposers (invokeYieldable y s)
  = disposers s ++ match get_yieldable y with
                   | Some h =>
                       match h_result h with
                       | HReturn d => as_disposer d
                       | HThrow _ => []
                       end
                   | None => []
                   end
  /\ disposed (trace (invokeYieldable y s)) = disposed (trace s).
Proof.
  unfold invokeYieldable.
  destruct (get_yieldable y) as [h|].
  - match goal with
    | |- context [resume_each ?i ?l ?x] =>
        pose proof (resume_each_undisturbed i l x) as H;
        set (s3 := resume_each i l x) in *
    end.
    assert (H1 : undisturbed s s3).
    { eapply undisturbed_trans; [|exact H].
      eapply undisturbed_trans; apply emit_undisturbed; reflexivity. }
    clear H. clearbody s3. destruct H1 as (A & B).
    destruct (h_result h) as [d|e].
    + destruct (addDisposer_captures d s3) as (C & D).
      split; congruence.
    + simpl. rewrite A, disposed_app, B. simpl.
      now rewrite !app_nil_r.
  - simpl. rewrite !disposed_app. simpl. now rewrite !app_nil_r.
Qed.

Lemma handleYieldedValue_captures sr s :
  disposers (handleYieldedValue sr s) = disposers s ++ captured_by (sr_value sr)
  /\ disposed (trace (handleYieldedValue sr s)) = disposed (trace s).
Proof.
  assert (Q : forall (x : engine G) l, undisturbed s x -> l = [] ->
                disposers x = disposers s ++ l
                /\ disposed (trace x) = disposed (trace s)).
  { intros x l (A & B) ->. rewrite app_nil_r. split; assumption. }
  unfold handleYieldedValue, captured_by, proceedWithSimpleValue.
  destruct (negb (truthy (sr_value sr)));
    [apply Q; [apply proceedAsync_undisturbed|reflexivity]|].
  destruct (get_raw (sr_value sr));
    [apply Q; [apply proceedAsync_undisturbed|reflexivity]|].
  destruct (addDisposer_captures (get_ec_cancel (sr_value sr)) s) as (A & B).
  set (s1 := addDisposer (get_ec_cancel (sr_value sr)) s) in *.
  clearbody s1.
  pose proof (invokeYieldable_captures (sr_value sr) s1) as I.
  destruct (get_yieldable (sr_value sr)) as [h|].
  - destruct I as (I1 & I2). rewrite I1, I2, A, B.
    now rewrite app_assoc.
  - clear I. rewrite app_nil_r.
    assert (U : forall x : engine G, undisturbed s1 x ->
                  disposers x = disposers s ++ as_disposer
                                                 (get_ec_cancel (sr_value sr))
                  /\ disposed (trace x) = disposed (trace s))
      by (intros x (U1 & U2); split; congruence).
    destruct (get_then (sr_value sr)); apply U.
    + unfold handleYieldedUnknownThenable.
      eapply undisturbed_trans; [|apply resume_each_undisturbed].
      apply emit_undisturbed; reflexivity.
    + apply proceedAsync_undisturbed.
Qed.

Lemma step_captures t v s :
  disposers s = [] ->
  let x := if done (generatorState s)
           then handleResolvedReturnedValue t v s
           else handleResolvedContinueValue t v s in
  disposed (trace x) = disposed (trace s)
  /\ disposers x
     = if negb (done (generatorState s))
          && (index (snd (generatorStep v t s)) =? index s)
          && negb (index s + 1 =? 0)
          && negb (sr_errored (fst (generatorStep v t s)))
       then captured_by (sr_value (fst (generatorStep v t s)))
       else [].
Proof.
  intros D. cbv zeta.
  assert (Q : forall (a x : engine G), undisturbed a x -> disposers a = [] ->
                disposed (trace a) = disposed (trace s) ->
                disposed (trace x) = disposed (trace s) /\ disposers x = []).
  { intros a x (A & B) Da Ta. split; congruence. }
  destruct (done (generatorState s)); cbn [negb andb].
  - apply (Q s); auto. apply handleResolvedReturnedValue_undisturbed.
  - unfold handleResolvedContinueValue.
    pose proof (generatorStep_undisturbed v t s) as U.
    destruct (generatorStep v t s) as [sr s2]. cbn [fst snd] in *.
    destruct U as (U1 & U2).
    unfold advanceIndex.
    destruct (index s2 =? index s) eqn:E; cbn [advanced negb andb].
    + apply Z.eqb_eq in E. rewrite E.
      destruct (index s + 1 =? 0); cbn [negb andb].
      * apply (Q s2); [|congruence|congruence].
        calm_with (@nil event).
      * destruct (sr_errored sr); cbn [negb].
        -- apply (Q (set_index (index s + 1) s2));
             [apply finalize_undisturbed|simpl; congruence|simpl; congruence].
        -- destruct (handleYieldedValue_captures sr
                       (set_index (index s + 1) s2)) as (A & B).
           rewrite A, B. simpl. rewrite U1, D. split; [congruence|reflexivity].
    + apply (Q s2); [apply undisturbed_refl|congruence|congruence].
Qed.

(** A resumption calls the pending disposers, all of them, once each and
    in the order of capture, and leaves pending what the step captures. *)
Lemma proceedSync_disposers t v s :
  isFinished (state s) = false ->
  disposed (trace (proceedSync t v s)) = disposed (trace s) ++ disposers s
  /\ disposers (proceedSync t v s) = captures t v s.
Proof.
  intros F. unfold proceedSync, captures, classifies. rewrite F. cbv zeta.
  destruct (dispose_frame VUndefined s)
    as (_ & _ & _ & _ & _ & D & _ & _ & T).
  cbv zeta in D, T.
  destruct (step_captures t v (dispose VUndefined s) D) as (A & B).
  split; [|exact B].
  rewrite A, T, disposed_app, disposed_disposers. reflexivity.
Qed.

Lemma resumption_disposers o t v s (x : engine G) :
  resumption o s = Some (t, v, x) ->
  undisturbed s x
  /\ isFinished (state x) = isFinished (state s)
  /\ disposers (apply_op o s) = disposers (proceedSync t v x)
  /\ disposed (trace (apply_op o s)) = disposed (trace (proceedSync t v x)).
Proof.
  destruct o; cbn [resumption apply_op]; try discriminate.
  - unfold start. fold (start_guard s).
    destruct (start_guard s); [discriminate|].
    intros H. injection H as <- <- <-.
    split; [apply setState_undisturbed|]. split; [reflexivity|].
    cbv zeta. cbn [emit disposers trace set_trace].
    rewrite disposed_app. simpl. rewrite app_nil_r. split; reflexivity.
  - intros H. injection H as <- <- <-.
    split; [apply undisturbed_refl|]. repeat split.
  - unfold turn. destruct (nth_error (env_queue s) n) as [[k w|]|];
      try discriminate.
    intros H. injection H as <- <- <-. cbn [run_thunk].
    split; [calm_with (@nil event)|]. repeat split.
Qed.

Lemma idle_undisturbed o s :
  resumption o s = None -> undisturbed s (apply_op o s).
Proof.
  destruct o; cbn [resumption apply_op]; try discriminate;
    auto using cancel_undisturbed, proceedChecked_undisturbed,
      onFinalize_undisturbed, promise_undisturbed.
  - unfold start. fold (start_guard s).
    destruct (start_guard s); [intros _; apply undisturbed_refl|discriminate].
  - intros _. unfold onYielded. cbn [snd].
    eapply undisturbed_trans; [|apply onFinalize_undisturbed].
    calm_with (@nil event).
  - unfold turn. destruct (nth_error (env_queue s) n) as [[k w|]|];
      try discriminate; intros _; [|apply undisturbed_refl].
    cbn [run_thunk]. destruct (negb _).
    + apply undisturbed_quiet with
        (d := [EvReportUncaught UnhandledTaskError (error (state s))]);
        reflexivity.
    + calm_with (@nil event).
Qed.

Lemma apply_op_disposers o s :
  disposed (trace (apply_op o s))
  = disposed (trace s) ++ (if resumes o s then disposers s else [])
  /\ (resumes o s = false -> disposers (apply_op o s) = disposers s).
Proof.
  unfold resumes.
  destruct (resumption o s) as [[[t v] x]|] eqn:R.
  - destruct (resumption_disposers o s R) as ((U1 & U2) & F & A & B).
    rewrite A, B.
    destruct (isFinished (state x)) eqn:Fx; cbn [negb].
    + rewrite (proceedSync_finished t v x Fx), app_nil_r. split; auto.
    + destruct (proceedSync_disposers t v x Fx) as (C & _).
      rewrite C, U1, U2. split; [reflexivity|discriminate].
  - destruct (idle_undisturbed o s R) as (U1 & U2).
    rewrite app_nil_r. split; auto.
Qed.

(** X15. Every disposer is captured once and called once.  Classifying
    a yielded value appends to the pending disposers exactly the
    functions it offers (the one under the cancelable key, then the one
    its handler returns; none for a falsy or raw value) and calls none.
    A [proceedSync] on an unfinished instance calls exactly the pending
    disposers, each once and in the order of capture, and leaves pending
    exactly what its step captures.  An operation calls disposers
    only through the [proceedSync] it makes, and when that finds the
    instance finished, or the operation makes none, no disposer is called
    and the pending ones stay as they are. *)
Theorem disposers_called_once t v o sr (s x : engine G) :
  (disposers (handleYieldedValue sr s)
   = disposers s ++ captured_by (sr_value sr)
   /\ disposed (trace (handleYieldedValue sr s)) = disposed (trace s))
  /\ (isFinished (state s) = false ->
      disposed (trace (proceedSync t v s)) = disposed (trace s) ++ disposers s
      /\ disposers (proceedSync t v s) = captures t v s)
  /\ (resumption o s = Some (t, v, x) ->
      undisturbed s x
      /\ disposers (apply_op o s) = disposers (proceedSync t v x)
      /\ disposed (trace (apply_op o s))
         = disposed (trace (proceedSync t v x)))
  /\ disposed (trace (apply_op o s))
     = disposed (trace s) ++ (if resumes o s then disposers s else [])
  /\ (resumes o s = false -> disposers (apply_op o s) = disposers s).
Proof.
  split; [apply handleYieldedValue_captures|].
  split; [apply proceedSync_disposers|].
  split; [|apply apply_op_disposers].
  intros R. destruct (resumption_disposers o s R) as (A & _ & B & C).
  repeat split; try assumption; apply A.
Qed.


(** ** The deferred result *)

Lemma settlements_emit e s :
  settlements (emit e s) = settlements s ++ (if is_settle e then [e] else []).
Proof. unfold settlements; simpl. now rewrite filter_app. Qed.

Lemma maybeResolveDefer_settlements s :
  settlements (maybeResolveDefer s)
  = settlements s ++
    (if defer s && isFinished (state s) then [settlement (state s)] else []).
Proof.
  unfold maybeResolveDefer, settlement.
  destruct (defer s); cbn [negb orb andb]; [|now rewrite app_nil_r].
  destruct (isFinished (state s)); cbn [negb]; [|now rewrite app_nil_r].
  destruct (completionState (state s)) as [[| |]|];
    now rewrite settlements_emit.
Qed.

Lemma finalizeShared_settlements p s :
  settlements (finalizeShared p s)
  = settlements s ++
    (if defer s then [settlement (state (finalizeShared p s))] else []).
Proof.
  destruct (finalizeShared_outcome p s) as (St & _). cbv zeta in St.
  rewrite St. unfold finalizeShared. cbv zeta.
  assert (D : forall c (x : engine G),
             settlements (dispatchFinalizeEvents c x) = settlements x).
  { intros c x. unfold dispatchFinalizeEvents.
    destruct c as [[| |]|]; rewrite ?settlements_emit; simpl;
      rewrite ?app_nil_r; auto.
    destruct (cancelRequest x); rewrite settlements_emit; simpl;
      now rewrite app_nil_r. }
  rewrite D. unfold runFinalizeCallbacks. cbv zeta.
  assert (M : forall x : engine G,
             settlements (maybeThrowUnhandledTaskErrorLater x) = settlements x).
  { intros x. unfold maybeThrowUnhandledTaskErrorLater.
    match goal with |- context [if ?b then _ else _] => destruct b end;
      reflexivity. }
  rewrite M, maybeResolveDefer_settlements.
  cbn [defer set_finalizeCallbacks emit_all set_trace setState emit state
       set_state set_index isFinished assign or_else p_isFinished].
  rewrite andb_true_r.
  unfold settlements.
  cbn [trace set_finalizeCallbacks emit_all set_trace setState emit
       set_state set_index].
  rewrite !filter_app.
  rewrite (filter_none is_settle
             (flat_map _ (finalizeCallbacks s))
             (count_callbacks is_settle _ _
                (fun _ => eq_refl) (fun _ _ _ _ => eq_refl))).
  simpl. now rewrite !app_nil_r.
Qed.

(** X16. The promise of an instance is settled with its outcome.  When
    the instance finishes and the promise exists, [finalize] settles it
    once: resolved with the value on success, rejected with the error on
    error, rejected with the cancelation error when a cancel request is
    pending; without a promise nothing is settled.  The first call of
    [promise()] on a finished instance settles the new promise at once
    in the same way, on an unfinished one it settles nothing, and later
    calls change nothing. *)
Theorem promise_settled_with_outcome v c (s : engine G) :
  settlements (finalize v c s)
  = settlements s ++
    (if defer s then
       [match cancelRequest s, c with
        | Some r, _ =>
            EvReject (cancelation_error
                        (formatCancelReason (delegate s) (reason r)))
        | None, COMPLETION_SUCCESS => EvResolve v
        | None, _ => EvReject v
        end]
     else [])
  /\ settlements (promise s)
     = settlements s ++
       (if negb (defer s) && isFinished (state s)
        then [settlement (state s)] else [])
  /\ promise (promise s) = promise s.
Proof.
  split; [|split].
  - unfold finalize. destruct (cancelRequest s) as [r|] eqn:E.
    + unfold finalizeWithCancel. rewrite E. cbv beta iota zeta.
      rewrite finalizeShared_settlements.
      match goal with
      | |- context [finalizeShared ?p ?x] =>
          destruct (finalizeShared_outcome p x) as (St & _)
      end.
      cbv zeta in St. rewrite St.
      destruct (debug (emit _ s) || _); unfold settlement; simpl;
        rewrite ?settlements_emit; simpl; rewrite ?app_nil_r; reflexivity.
    + cbv zeta. rewrite finalizeShared_settlements.
      match goal with
      | |- context [finalizeShared ?p s] =>
          destruct (finalizeShared_outcome p s) as (St & _)
      end.
      cbv zeta in St. rewrite St.
      destruct c; unfold settlement; simpl; reflexivity.
  - unfold promise. destruct (defer s); cbn [negb andb];
      [now rewrite app_nil_r|].
    rewrite maybeResolveDefer_settlements. simpl.
    unfold settlements. simpl. rewrite filter_app. simpl.
    now rewrite app_nil_r.
  - unfold promise at 1.
    assert (D : defer (promise s) = true).
    { unfold promise, maybeResolveDefer. destruct (defer s) eqn:E; [exact E|].
      simpl. break; reflexivity. }
    now rewrite D.
Qed.
End Properties.

(** * The engine at work *)

(** A body that yields a promise resolving to 5 finishes with 5. *)
Example scenario_resolved :
  let s := run [OpStart; OpProceedChecked 2 YIELDABLE_CONTINUE (VNum 5);
                OpTurn 0; OpTurn 0] (yielding a_thenable) in
  completionState (state s) = Some COMPLETION_SUCCESS
  /\ value (state s) = VNum 5
  /\ delivered s = [EvOnSuccess].
Proof. vm_compute. repeat split. Qed.

(** A body that yields a promise rejecting with ["E"] finishes in error,
    and the error is reported once nobody asked for the promise. *)
Example scenario_rejected :
  let s := run [OpStart; OpProceedChecked 2 YIELDABLE_THROW (VStr "E");
                OpTurn 0; OpTurn 0] (yielding a_thenable) in
  completionState (state s) = Some COMPLETION_ERROR
  /\ error (state s) = VStr "E"
  /\ delivered s = [EvOnError (VStr "E")]
  /\ unhandled_reports s = 1%nat.
Proof. vm_compute. repeat split. Qed.

(** The same child, yielded into a parent before it fails: no report. *)
Example scenario_rejected_child :
  let s := run [OpStart; OpOnYielded 1 2;
                OpProceedChecked 2 YIELDABLE_THROW (VStr "E");
                OpTurn 0; OpTurn 0; OpTurn 0] (yielding a_thenable) in
  completionState (state s) = Some COMPLETION_ERROR
  /\ unhandled_reports s = O
  /\ env_queue s = []
  /\ In (EvParentProceedChecked 1 2 YIELDABLE_THROW (VStr "E")) (trace s).
Proof. vm_compute. repeat split. auto 10. Qed.

(** C1: three attempts with ticket 2 on an instance waiting at index 2,
    with a turn of the scheduler in between. *)
Lemma proceedChecked_ticket_once_witness :
  accepts 2 waiting = true
  /\ (honored 2 [OpProceedChecked 2 YIELDABLE_CONTINUE (VNum 5);
                 OpProceedChecked 2 YIELDABLE_THROW (VStr "late");
                 OpTurn 0;
                 OpProceedChecked 2 YIELDABLE_CONTINUE (VNum 6)] waiting
      <= 1)%nat.
Proof.
  split; [reflexivity|].
  apply (proceedChecked_ticket_once waiting 2 YIELDABLE_CONTINUE (VNum 5)).
Defined.

(** C2: an instance is started, resumed with the ticket its thenable was
    handed, and runs to its end; a second [start] changes nothing. *)
Lemma finalized_once_witness :
  let ops := [OpStart; OpProceedChecked 2 YIELDABLE_CONTINUE (VNum 5);
              OpTurn 0; OpTurn 0] in
  let s := run ops (yielding a_thenable) in
  well_driven ops (yielding a_thenable) = true
  /\ isFinished (state s) = true
  /\ terminals s = 1%nat /\ finalizations s = 1%nat /\ start s = s.
Proof.
  cbv zeta. unfold yielding.
  assert (W : well_driven
                [OpStart; OpProceedChecked 2 YIELDABLE_CONTINUE (VNum 5);
                 OpTurn 0; OpTurn 0]
                (new_TaskInstanceState (yields_once a_thenable) false host
                   quiet_env false PERFORM_TYPE_DEFAULT) = true)
    by (vm_compute; reflexivity).
  pose proof (finalized_once
                [OpStart; OpProceedChecked 2 YIELDABLE_CONTINUE (VNum 5);
                 OpTurn 0; OpTurn 0]
                (yields_once a_thenable) false host quiet_env false
                PERFORM_TYPE_DEFAULT) as H.
  cbv zeta in H.
  set (s := run _ _) in *.
  assert (F : isFinished (state s) = true) by (vm_compute; reflexivity).
  destruct H as (A & B & C).
  split; [exact W|]. split; [exact F|].
  split; [rewrite A, F; reflexivity|]. split; [rewrite B, F; reflexivity|].
  destruct (C F) as (_ & _ & _ & S). exact (S W).
Defined.

(** The tickets matter.  Ticket 1 is the index of a fresh instance, but
    the instance has handed it to nobody; a caller that presents it
    anyway, before [start], is not driving the instance through its
    interface, and makes it run to its end unstarted, where [start]
    still publishes [hasStarted]. *)
Example unissued_ticket_escapes_start_guard :
  let ops := [OpProceedChecked 1 YIELDABLE_CONTINUE VUndefined;
              OpTurn 0; OpTurn 0] in
  well_driven ops five = false
  /\ isFinished (state (run ops five)) = true
  /\ hasStarted (state (run ops five)) = false
  /\ hasStarted (state (start (run ops five))) = true.
Proof. cbv zeta. repeat split; vm_compute; reflexivity. Qed.

(** C3: the body returns 5 while a cancel request is pending. *)
Lemma finalize_cancel_preempts_witness :
  cancelRequest cancel_pending
  = Some {| kind := CANCEL_KIND_EXPLICIT; reason := VStr "stop" |}
  /\ completionState (state (finalize (VNum 5) COMPLETION_SUCCESS cancel_pending))
     = Some COMPLETION_CANCEL
  /\ value (state (finalize (VNum 5) COMPLETION_SUCCESS cancel_pending)) = VNull
  /\ delivered (finalize (VNum 5) COMPLETION_SUCCESS cancel_pending)
     = [EvOnCancel (VStr "stop")].
Proof.
  split; [reflexivity|].
  pose proof (finalize_cancel_preempts (VNum 5) COMPLETION_SUCCESS cancel_pending)
    as H.
  cbv zeta in H.
  change (cancelRequest cancel_pending)
    with (Some {| kind := CANCEL_KIND_EXPLICIT; reason := VStr "stop" |}) in H.
  cbv iota beta in H.
  destruct H as (_ & _ & A & _ & _ & B & _ & _ & C).
  split; [exact A|]. split; [exact B|exact C].
Defined.

(** C5: a new instance is canceled before [start]. *)
Lemma cancel_before_start_witness :
  hasStarted (state five) = false
  /\ cancelRequest five = None
  /\ isFinished (state five) = false
  /\ completionState (state (cancel (VStr "stop") five))
     = Some COMPLETION_CANCEL
  /\ delivered (cancel (VStr "stop") five) = [EvOnCancel (VStr "stop")]
  /\ forall ops, steps (run ops (cancel (VStr "stop") five)) = O.
Proof.
  destruct (cancel_before_start (VStr "stop") five eq_refl eq_refl eq_refl)
    as (_ & A & _ & B & C).
  split; [reflexivity|]. split; [reflexivity|]. split; [reflexivity|].
  split; [exact A|]. split; [exact B|].
  intros ops. apply (C ops).
Defined.

(** C6: a [RawValue] that looks like a yieldable and like a promise. *)
Lemma raw_value_resumes_unwrapped_witness :
  get_raw raw_lookalike = Some (VNum 7)
  /\ trace (handleYieldedValue (yielded raw_lookalike) waiting) = trace waiting
  /\ env_queue (handleYieldedValue (yielded raw_lookalike) waiting)
     = env_queue waiting ++ [ThProceedSync YIELDABLE_CONTINUE (VNum 7)].
Proof.
  split; [reflexivity|].
  destruct (raw_value_resumes_unwrapped (yielded raw_lookalike) waiting
              (inner := VNum 7) eq_refl)
    as (_ & A & _ & _ & _ & B).
  split; [exact A|exact B].
Defined.

(** C7: the disposer attached to a [RawValue] is not captured. *)
Lemma raw_value_disposer_not_captured :
  get_ec_cancel raw_lookalike = VFun 9
  /\ disposers (handleYieldedValue (yielded raw_lookalike) five) = []
  /\ disposers (run [OpStart] (yielding raw_lookalike)) = []
  /\ ~ In (VFun 9) (disposers (run [OpStart] (yielding raw_lookalike))).
Proof. repeat split; try reflexivity. intros []. Qed.

Lemma disposer_captured_unless_raw_witness :
  get_raw thrower = None
  /\ get_ec_cancel thrower = VFun 3
  /\ exists rest,
       disposers (handleYieldedValue (yielded thrower) five)
       = disposers five ++ VFun 3 :: rest.
Proof.
  split; [reflexivity|]. split; [reflexivity|].
  apply (disposer_captured_unless_raw (yielded thrower) five (f := 3%nat));
    reflexivity.
Defined.

(** C9: a yieldable whose handler throws ["boom"]. *)
Lemma yieldable_failure_reported_witness :
  get_raw thrower = None
  /\ get_yieldable thrower = Some (Handler 4 [] (HThrow (VStr "boom")))
  /\ trace (handleYieldedValue (yielded thrower) five)
     = [EvGetYieldContext; EvYieldable 4 VUndefined 1;
        EvReportUncaught YieldableFailure (VStr "boom")]
  /\ state (handleYieldedValue (yielded thrower) five) = state five.
Proof.
  split; [reflexivity|]. split; [reflexivity|].
  destruct (yieldable_failure_reported (yielded thrower) five
              (h := Handler 4 [] (HThrow (VStr "boom"))) (e := VStr "boom")
              eq_refl eq_refl eq_refl)
    as (A & B & _).
  split; [exact A|exact B].
Defined.

(** X3: the promise resolves after [cancel("stop")]; the instance still
    finishes canceled. *)
Lemma pending_cancel_wins_witness :
  cancelRequest cancel_pending
  = Some {| kind := CANCEL_KIND_EXPLICIT; reason := VStr "stop" |}
  /\ isFinished (state cancel_pending) = false
  /\ isFinished (state (run [OpProceedChecked 2 YIELDABLE_CONTINUE (VNum 5);
                             OpTurn 0; OpTurn 0] cancel_pending)) = true
  /\ delivered (run [OpProceedChecked 2 YIELDABLE_CONTINUE (VNum 5);
                     OpTurn 0; OpTurn 0] cancel_pending)
     = [EvOnCancel (VStr "stop")].
Proof.
  split; [reflexivity|]. split; [reflexivity|]. split; [reflexivity|].
  apply (pending_cancel_wins
           (r := {| kind := CANCEL_KIND_EXPLICIT; reason := VStr "stop" |})
           cancel_pending
           [OpProceedChecked 2 YIELDABLE_CONTINUE (VNum 5); OpTurn 0; OpTurn 0]
           eq_refl eq_refl eq_refl).
Defined.

(** X5: a finished instance is cancelled, restarted and resumed. *)
Lemma finished_is_final_witness :
  isFinished (state (run [OpStart; OpTurn 0] five)) = true
  /\ delivered (run [OpCancel VNull; OpStart; OpProceedSync YIELDABLE_THROW VNull]
                  (run [OpStart; OpTurn 0] five))
     = [EvOnSuccess].
Proof.
  split; [reflexivity|].
  apply (finished_is_final (run [OpStart; OpTurn 0] five)
           [OpCancel VNull; OpStart; OpProceedSync YIELDABLE_THROW VNull]
           eq_refl).
Defined.

(** X6: the promise of a failing instance is requested before it runs. *)
Lemma promise_suppresses_report_witness :
  defer failing = false
  /\ unhandled_reports (run [OpStart; OpTurn 0; OpTurn 0] (promise failing)) = O.
Proof.
  split; [reflexivity|].
  apply (promise_suppresses_report failing [OpStart; OpTurn 0; OpTurn 0] eq_refl).
Defined.

(** X8: the body throws on its first step. *)
Lemma step_failure_finishes_in_error_witness :
  isFinished (state failing) = false
  /\ done (generatorState failing) = false
  /\ cancelRequest failing = None
  /\ index failing <> -1
  /\ error (state (proceedSync YIELDABLE_CONTINUE VUndefined failing))
     = VStr "boom"
  /\ delivered (proceedSync YIELDABLE_CONTINUE VUndefined failing)
     = [EvOnError (VStr "boom")].
Proof.
  assert (I : index failing <> -1) by discriminate.
  destruct (step_failure_finishes_in_error YIELDABLE_CONTINUE VUndefined
              (e := VStr "boom") failing eq_refl eq_refl eq_refl I eq_refl)
    as (_ & _ & _ & A & B & _).
  split; [reflexivity|]. split; [reflexivity|]. split; [reflexivity|].
  split; [exact I|]. split; [exact A|exact B].
Defined.

(** X9: the resumed body cancels its own instance and throws. *)
Lemma self_cancel_discards_step_witness :
  hasStarted (state self_canceling) = true
  /\ isFinished (state self_canceling) = false
  /\ cancelRequest self_canceling = None
  /\ cancelRequest (handleResolvedContinueValue YIELDABLE_CONTINUE (VNum 5)
                      self_canceling)
     = Some {| kind := CANCEL_KIND_EXPLICIT; reason := VStr "self" |}
  /\ state (handleResolvedContinueValue YIELDABLE_CONTINUE (VNum 5)
              self_canceling)
     = state self_canceling.
Proof.
  destruct (self_cancel_discards_step YIELDABLE_CONTINUE (VNum 5)
              (r := VStr "self") (rest := []) self_canceling
              eq_refl eq_refl eq_refl eq_refl)
    as (_ & A & B & _).
  split; [reflexivity|]. split; [reflexivity|]. split; [reflexivity|].
  split; [exact A|exact B].
Defined.

(** X10: a child's cancellation arrives at the waiting parent. *)
Lemma honoured_resumption_effect_witness :
  accepts 2 waiting = true
  /\ 2 <> -1
  /\ cancelRequest (proceedChecked 2 YIELDABLE_CANCEL VNull waiting)
     = Some {| kind := CANCEL_KIND_YIELDED; reason := VUndefined |}
  /\ env_queue (proceedChecked 2 YIELDABLE_CANCEL VNull waiting)
     = [ThProceedSync YIELDABLE_RETURN VSentinel].
Proof.
  assert (I : 2 <> -1) by discriminate.
  destruct (honoured_resumption_effect (i := 2) YIELDABLE_CANCEL VNull waiting
              eq_refl I) as (_ & _ & _ & A & B).
  split; [reflexivity|]. split; [exact I|]. split; [exact B|exact A].
Defined.

(** X11: the promise resolves after the instance was canceled. *)
Lemma cancel_expires_ticket_witness :
  cancelRequest waiting = None
  /\ isFinished (state waiting) = false
  /\ index waiting = 2
  /\ proceedChecked 2 YIELDABLE_CONTINUE (VNum 5)
       (run [OpTurn 0] (cancel (VStr "stop") waiting))
     = run [OpTurn 0] (cancel (VStr "stop") waiting).
Proof.
  split; [reflexivity|]. split; [reflexivity|]. split; [reflexivity|].
  apply (cancel_expires_ticket (VStr "stop") YIELDABLE_CONTINUE (VNum 5)
           waiting [OpTurn 0] eq_refl eq_refl).
Defined.

(** X12: the yielded child finishes in error. *)
Lemma yielded_child_resumes_parent_witness :
  In (CbResumeParent 1 2) (finalizeCallbacks yielded_child)
  /\ In (EvParentProceedChecked 1 2 YIELDABLE_THROW (VStr "E"))
        (trace (finalize (VStr "E") COMPLETION_ERROR yielded_child)).
Proof.
  assert (I : In (CbResumeParent 1 2) (finalizeCallbacks yielded_child))
    by (left; reflexivity).
  split; [exact I|].
  apply (yielded_child_resumes_parent 1 2 (VStr "E") COMPLETION_ERROR
           yielded_child I).
Defined.

(** X13: once the body has returned, nothing steps it again. *)
Lemma done_body_never_stepped_witness :
  done (generatorState (run [OpStart] five)) = true
  /\ steps (run [OpTurn 0; OpStart; OpProceedSync YIELDABLE_CONTINUE VNull]
              (run [OpStart] five)) = 1%nat.
Proof.
  split; [reflexivity|].
  apply (done_body_never_stepped (run [OpStart] five)
           [OpTurn 0; OpStart; OpProceedSync YIELDABLE_CONTINUE VNull]
           eq_refl).
Defined.

(** X15: the disposer attached to a yielded object is pending after the
    step, is called by the turn that resumes the instance and by nothing
    before; a yieldable with a disposer attached whose handler throws adds
    that one disposer. *)
Lemma disposers_called_once_witness :
  let s := run [OpStart] (yielding disposable) in
  disposers s = [VFun 3]
  /\ disposed (trace s) = []
  /\ disposed (trace (apply_op (OpTurn 0) s)) = [VFun 3]
  /\ disposers (handleYieldedValue (yielded thrower) s) = [VFun 3; VFun 3].
Proof.
  cbv zeta.
  pose proof (disposers_called_once YIELDABLE_CONTINUE disposable (OpTurn 0)
                (yielded thrower) (run [OpStart] (yielding disposable))
                (run [OpStart] (yielding disposable))) as H.
  set (s := run [OpStart] (yielding disposable)) in *.
  destruct H as ((A & _) & _ & _ & D & _).
  assert (P : disposers s = [VFun 3]) by (vm_compute; reflexivity).
  assert (T : disposed (trace s) = []) by (vm_compute; reflexivity).
  assert (R : resumes (OpTurn 0) s = true) by (vm_compute; reflexivity).
  split; [exact P|]. split; [exact T|].
  split; [rewrite D, R, T, P; reflexivity|].
  rewrite A, P. reflexivity.
Defined.

(** X16: the promise of a failing instance, requested before it runs, is
    rejected with the error. *)
Lemma promise_settled_with_outcome_witness :
  defer (promise failing) = true
  /\ settlements (finalize (VStr "boom") COMPLETION_ERROR (promise failing))
     = [EvReject (VStr "boom")].
Proof.
  split; [reflexivity|].
  apply (promise_settled_with_outcome (VStr "boom") COMPLETION_ERROR
           (promise failing)).
Defined.
